(** * hearthis-search: the search aggregation pipeline of [app.py]

    A shallow embedding of [calculate_score], [fetch_global], [fetch_artist]
    and the [/search] route, followed by the properties the specification
    states about them.

    Conventions of the embedding.
    - A JSON document decoded by [r.json()] is a [value]; a JSON object is an
      association list in document order.  A finite float is the rational it
      denotes ([VFloat]); the rounding of float addition, [nan] and the
      infinities are outside the model.
    - Python strings are [string]s over the ASCII range: [lower], [strip],
      [split] and [in] are the ASCII restrictions of [str.lower], [str.strip],
      [str.split] and substring containment.  The length test of the route,
      which depends on characters beyond ASCII, is also modelled on code
      points ([search_text]); [search_text_ascii] relates the two.
    - The built-ins are those of Python 3.11: [int] skips tab, line feed,
      vertical tab, form feed, carriage return and space around an ASCII
      literal and refuses more than 4300 digits.
    - A Python call that may raise returns a [res]; [try_except] is the bare
      [try: ... except: return []] of the fetchers.
    - [fuzz.token_set_ratio] (rapidfuzz), the remote service and the order in
      which futures complete are parameters.
    - [cachetools.TTLCache] is an ordered list of entries with an expiry time,
      read at an explicit clock. *)

From Stdlib Require Import ZArith QArith Bool List String Ascii Lia Lqa.
From Stdlib Require Import Permutation Sorted.
Import ListNotations.

Open Scope string_scope.
Open Scope list_scope.
Open Scope Z_scope.

#[local] Set Warnings "-register-all".

(* ------------------------------------------------------------------ *)
(** ** Exceptions *)

Inductive exn : Type :=
| AttributeError   (* a method looked up on a value that lacks it *)
| TypeError        (* unhashable key, unordered operands, int(None) *)
| ValueError       (* int() of a malformed literal, undecodable JSON *)
| KeyError         (* subscript of a missing or expired key *)
| RequestException (* requests.get failed: timeout, connection error *).

Inductive res (A : Type) : Type :=
| Ok (a : A)
| Raise (e : exn).

Arguments Ok {A} a.
Arguments Raise {A} e.

Definition bind {A B : Type} (m : res A) (k : A -> res B) : res B :=
  match m with
  | Ok a => k a
  | Raise e => Raise e
  end.

Notation "x <- m ;; k" := (bind m (fun x => k))
  (at level 61, m at next level, right associativity).

(** [try: body  except: return handler]. *)
Definition try_except {A : Type} (body : res A) (handler : A) : A :=
  match body with
  | Ok a => a
  | Raise _ => handler
  end.

Fixpoint mapM {A B : Type} (f : A -> res B) (l : list A) : res (list B) :=
  match l with
  | [] => Ok []
  | x :: l' => y <- f x ;; ys <- mapM f l' ;; Ok (y :: ys)
  end.

Fixpoint foldM {A S : Type} (f : S -> A -> res S) (s : S) (l : list A) : res S :=
  match l with
  | [] => Ok s
  | x :: l' => s' <- f s x ;; foldM f s' l'
  end.

(* ------------------------------------------------------------------ *)
(** ** Python values *)

Inductive value : Type :=
| VNone
| VBool (b : bool)
| VInt (z : Z)
| VFloat (q : Q)
| VStr (s : string)
| VList (l : list value)
| VDict (d : list (string * value)).

Definition is_dict (v : value) : bool :=
  match v with VDict _ => true | _ => false end.

(** Truth value of an object in a condition. *)
Definition truthy (v : value) : bool :=
  match v with
  | VNone => false
  | VBool b => b
  | VInt z => negb (z =? 0)
  | VFloat q => negb (Qeq_bool q 0)
  | VStr s => negb (String.eqb s "")
  | VList l => match l with [] => false | _ => true end
  | VDict d => match d with [] => false | _ => true end
  end.

(** The number a numeric object denotes ([bool] is a subtype of [int]). *)
Definition num_of (v : value) : option Q :=
  match v with
  | VBool b => Some (inject_Z (if b then 1 else 0))
  | VInt z => Some (inject_Z z)
  | VFloat q => Some q
  | _ => None
  end.

Definition Qltb (a b : Q) : bool := negb (Qle_bool b a).

(** [a > b]: numbers compare by value; every other pairing met here
    (str, None, list, dict against an int) raises [TypeError]. *)
Definition py_gt (a b : value) : res bool :=
  match num_of a, num_of b with
  | Some x, Some y => Ok (Qltb y x)
  | _, _ => Raise TypeError
  end.

Definition hashable (v : value) : bool :=
  match v with
  | VList _ | VDict _ => false
  | _ => true
  end.

(** [a == b] on hashable objects: [1 == 1.0 == True]. *)
Definition py_eq (a b : value) : bool :=
  match a, b with
  | VNone, VNone => true
  | VStr s, VStr t => String.eqb s t
  | _, _ =>
      match num_of a, num_of b with
      | Some x, Some y => Qeq_bool x y
      | _, _ => false
      end
  end.

(** [x in s] for a [set] [s]: hashing [x] comes first. *)
Definition set_contains (x : value) (s : list value) : res bool :=
  if hashable x then Ok (existsb (py_eq x) s) else Raise TypeError.

Definition set_add (x : value) (s : list value) : list value :=
  if existsb (py_eq x) s then s else s ++ [x].

(* ------------------------------------------------------------------ *)
(** ** Dictionaries *)

Fixpoint dict_get (d : list (string * value)) (k : string) : option value :=
  match d with
  | [] => None
  | (k', v) :: d' => if String.eqb k' k then Some v else dict_get d' k
  end.

(** [d[k] = v]: an existing key keeps its position. *)
Fixpoint dict_set (d : list (string * value)) (k : string) (v : value)
  : list (string * value) :=
  match d with
  | [] => [(k, v)]
  | (k', v') :: d' =>
      if String.eqb k' k then (k, v) :: d' else (k', v') :: dict_set d' k v
  end.

(** [x.get(k, default)]; only a dict has the method. *)
Definition py_get (x : value) (k : string) (default : value) : res value :=
  match x with
  | VDict d => Ok (match dict_get d k with Some v => v | None => default end)
  | _ => Raise AttributeError
  end.

(** [k in x] for a dict [x]. *)
Definition has_key (k : string) (x : value) : bool :=
  match x with
  | VDict d => match dict_get d k with Some _ => true | None => false end
  | _ => false
  end.

(** [x[k]]. *)
Definition py_getitem (x : value) (k : string) : res value :=
  match x with
  | VDict d => match dict_get d k with Some v => Ok v | None => Raise KeyError end
  | _ => Raise TypeError
  end.

(** [x[k] = v]. *)
Definition py_setitem (x : value) (k : string) (v : value) : value :=
  match x with
  | VDict d => VDict (dict_set d k v)
  | _ => x
  end.

(* ------------------------------------------------------------------ *)
(** ** Strings *)

Definition is_space (c : ascii) : bool :=
  let n := nat_of_ascii c in
  ((9 <=? n) && (n <=? 13) || (28 <=? n) && (n <=? 32))%nat.

Definition lower_char (c : ascii) : ascii :=
  let n := nat_of_ascii c in
  if ((65 <=? n) && (n <=? 90))%nat then ascii_of_nat (n + 32) else c.

Fixpoint lower (s : string) : string :=
  match s with
  | EmptyString => EmptyString
  | String c s' => String (lower_char c) (lower s')
  end.

Fixpoint lstrip (s : string) : string :=
  match s with
  | EmptyString => EmptyString
  | String c s' => if is_space c then lstrip s' else s
  end.

Fixpoint rstrip (s : string) : string :=
  match s with
  | EmptyString => EmptyString
  | String c s' =>
      match rstrip s' with
      | EmptyString => if is_space c then EmptyString else String c EmptyString
      | r => String c r
      end
  end.

Definition strip (s : string) : string := rstrip (lstrip s).

(** [needle in hay]. *)
Fixpoint substr_in (needle hay : string) : bool :=
  String.prefix needle hay ||
  match hay with
  | EmptyString => false
  | String _ hay' => substr_in needle hay'
  end.

(** [s.split()]: the maximal runs of non-whitespace characters.  [word] is
    the run being read, reversed. *)
Fixpoint split_aux (word : list ascii) (s : string) : list string :=
  let flush (rest : list string) :=
    match word with
    | [] => rest
    | _ => string_of_list_ascii (rev word) :: rest
    end in
  match s with
  | EmptyString => flush []
  | String c s' =>
      if is_space c then flush (split_aux [] s') else split_aux (c :: word) s'
  end.

Definition split (s : string) : list string := split_aux [] s.

(** [x.lower()]; only a str has the method. *)
Definition py_lower (x : value) : res string :=
  match x with
  | VStr s => Ok (lower s)
  | _ => Raise AttributeError
  end.

Definition is_digit (c : ascii) : bool :=
  let n := nat_of_ascii c in ((48 <=? n) && (n <=? 57))%nat.

Definition digit_val (c : ascii) : Z := Z.of_nat (nat_of_ascii c) - 48.

(** Decimal digits with single underscores between them, as [int] reads
    them.  [seen] says that a digit has just been read. *)
Fixpoint parse_digits (acc : Z) (seen : bool) (s : string) : option Z :=
  match s with
  | EmptyString => if seen then Some acc else None
  | String c s' =>
      if is_digit c then parse_digits (10 * acc + digit_val c) true s'
      else if Ascii.eqb c "_"%char && seen then parse_digits acc false s'
      else None
  end.

(** The whitespace [int] skips around an ASCII literal: tab, line feed,
    vertical tab, form feed, carriage return and space.  (The separators
    28..31, which [str.strip] removes, are not among them.) *)
Definition is_int_space (c : ascii) : bool :=
  let n := nat_of_ascii c in
  ((9 <=? n) && (n <=? 13) || (n =? 32))%nat.

Fixpoint int_lstrip (s : string) : string :=
  match s with
  | EmptyString => EmptyString
  | String c s' => if is_int_space c then int_lstrip s' else s
  end.

Fixpoint int_rstrip (s : string) : string :=
  match s with
  | EmptyString => EmptyString
  | String c s' =>
      match int_rstrip s' with
      | EmptyString => if is_int_space c then EmptyString else String c EmptyString
      | r => String c r
      end
  end.

(** [sys.get_int_max_str_digits()], as Python 3.11 sets it. *)
Definition INT_MAX_STR_DIGITS : Z := 4300.

Fixpoint count_digits (s : string) : Z :=
  match s with
  | EmptyString => 0
  | String c s' => (if is_digit c then 1 else 0) + count_digits s'
  end.

(** The digits of a literal: more than [INT_MAX_STR_DIGITS] of them
    (underscores apart) are refused. *)
Definition read_digits (s : string) : option Z :=
  if INT_MAX_STR_DIGITS <? count_digits s then None
  else parse_digits 0 false s.

(** [int(s)] for a str [s]: surrounding whitespace, an optional sign, digits. *)
Definition int_of_string (s : string) : option Z :=
  match int_rstrip (int_lstrip s) with
  | String "-"%char s' => option_map Z.opp (read_digits s')
  | String "+"%char s' => read_digits s'
  | s' => read_digits s'
  end.

(** [int(x)]. *)
Definition py_int (x : value) : res Z :=
  match x with
  | VBool b => Ok (if b then 1 else 0)
  | VInt z => Ok z
  | VFloat q => Ok (Z.quot (Qnum q) (Zpos (Qden q)))
  | VStr s => match int_of_string s with Some z => Ok z | None => Raise ValueError end
  | VNone | VList _ | VDict _ => Raise TypeError
  end.

(* ------------------------------------------------------------------ *)
(** ** The query as text

    The raw query is a Python str: a sequence of code points, which [len]
    counts.  [str.strip] and [str.lower] are modelled on code points here so
    that the length the route tests is the one Python computes for every
    query; past the test the query is handed on as its UTF-8 bytes. *)

Definition text : Type := list N.

(** [c.isspace()]: what [str.strip] removes. *)
Definition is_space_cp (c : N) : bool :=
  ((9 <=? c) && (c <=? 13) || (28 <=? c) && (c <=? 32)
   || (c =? 133) || (c =? 160) || (c =? 5760)
   || (8192 <=? c) && (c <=? 8202)
   || (c =? 8232) || (c =? 8233) || (c =? 8239) || (c =? 8287)
   || (c =? 12288))%N.

(** [c.lower()] for one code point: the ASCII letters, and U+0130 (capital
    I with dot above), whose lower-case form is the two code points U+0069
    U+0307 and which is the one code point whose lower-case form is longer
    than itself.  The lower-case forms of the other letters beyond ASCII,
    one code point each, are not spelled out: such a letter is left as it
    is, which keeps the length right. *)
Definition lower_cp (c : N) : list N :=
  (if (65 <=? c) && (c <=? 90) then [c + 32]
   else if c =? 304 then [105; 775]
   else [c])%N.

Definition text_lower (s : text) : text := flat_map lower_cp s.

Fixpoint text_lstrip (s : text) : text :=
  match s with
  | [] => []
  | c :: s' => if is_space_cp c then text_lstrip s' else s
  end.

Fixpoint text_rstrip (s : text) : text :=
  match s with
  | [] => []
  | c :: s' =>
      match text_rstrip s' with
      | [] => if is_space_cp c then [] else [c]
      | r => c :: r
      end
  end.

Definition text_strip (s : text) : text := text_rstrip (text_lstrip s).

(** [request.args.get("q", "").strip().lower()]. *)
Definition normalize_text (raw : option text) : text :=
  text_lower (text_strip (match raw with Some s => s | None => [] end)).

(** The UTF-8 bytes of a code point, and of a text. *)
Definition utf8_cp (c : N) : list ascii :=
  (if c <? 128 then [ascii_of_N c]
   else if c <? 2048 then
     [ascii_of_N (192 + c / 64); ascii_of_N (128 + c mod 64)]
   else if c <? 65536 then
     [ascii_of_N (224 + c / 4096); ascii_of_N (128 + (c / 64) mod 64);
      ascii_of_N (128 + c mod 64)]
   else
     [ascii_of_N (240 + c / 262144); ascii_of_N (128 + (c / 4096) mod 64);
      ascii_of_N (128 + (c / 64) mod 64); ascii_of_N (128 + c mod 64)])%N.

Definition encode (s : text) : string :=
  string_of_list_ascii (flat_map utf8_cp s).

(** The code points of a string of ASCII characters. *)
Fixpoint codes (s : string) : text :=
  match s with
  | EmptyString => []
  | String c s' => N_of_ascii c :: codes s'
  end.

Fixpoint ascii_only (s : string) : bool :=
  match s with
  | EmptyString => true
  | String c s' => (N_of_ascii c <? 128)%N && ascii_only s'
  end.

(* ------------------------------------------------------------------ *)
(** ** The remote service *)

(** What one [requests.get] call meets. *)
Inductive http_outcome : Type :=
| NetworkError                                   (* the call raised *)
| Response (status_code : Z) (json : option value).
                                   (* [json = None]: [r.json()] raises *)

(** The two calls the fetchers make. *)
Inductive request : Type :=
| GlobalSearch (q : string) (page : Z)  (* /search?q=..&type=tracks&page=..&count=20 *)
| ArtistTracks (artist : string).       (* /<artist>/?type=tracks&count=100 *)

(** The remote service as one aggregation run meets it; the client-identity
    header drawn by [get_headers] is part of what decides the outcome. *)
Definition network : Type := request -> http_outcome.

Definition requests_get (net : network) (rq : request) : res (Z * option value) :=
  match net rq with
  | NetworkError => Raise RequestException
  | Response status body => Ok (status, body)
  end.

Definition r_json (body : option value) : res value :=
  match body with
  | Some data => Ok data
  | None => Raise ValueError
  end.

(* ------------------------------------------------------------------ *)
(** ** CONFIGURATION *)

Definition KNOWN_ARTISTS : list string :=
  [ "aidm"; "allindiandjsclub"; "djnyk"; "djo2srk"; "djshadowdubai"; "desitech";
    "djshree"; "djchetas"; "djaqueel"; "djlemon"; "djparoma";
    "djkawal"; "djbteja"; "djrix"; "djsmita"; "djnotorious";
    "djsyrah"; "djsarfaraz"; "djasif"; "djsubham"; "djtejas";
    "djakhil"; "djyogi"; "djamit"; "djruanon"; "djkwid";
    "remix"; "bollywood"; "clubmirchi"; "midnight"; "bdes";
    "djremix"; "mashup"; "desiremix"; "hindiremix"; "punjabiremix";
    "djdalal"; "djshouki"; "djshaan"; "djshadow"; "djrink" ].

Definition CACHE_MAXSIZE : nat := 3000.
Definition CACHE_TTL : Q := 1800 # 1.

Section Pipeline.

(** [fuzz.token_set_ratio]. *)
Variable token_set_ratio : string -> string -> Q.

(* ------------------------------------------------------------------ *)
(** ** HELPER: Relevance Scorer *)

Definition calculate_score (query : string) (track : value) : res value :=
  title_v <- py_get track "title" (VStr "") ;;
  title <- py_lower title_v ;;
  user_v <- py_get track "user" (VDict []) ;;
  username_v <- py_get user_v "username" (VStr "") ;;
  user <- py_lower username_v ;;
  let combined := String.append title (String.append " " user) in
  (* 1. Exact match bonus *)
  if substr_in query title then Ok (VInt 100)
  else
    (* 2. Split match *)
    let query_parts := split query in
    if (1 <? List.length query_parts)%nat
       && forallb (fun part => substr_in part combined) query_parts
    then Ok (VInt 95)
    else
      (* 3. Fuzzy match *)
      let score := token_set_ratio query combined in
      (* 4. Downloadable tracks get a small boost *)
      download_url <- py_get track "download_url" VNone ;;
      Ok (VFloat (if truthy download_url then (score + 5)%Q else score)).

(* ------------------------------------------------------------------ *)
(** ** SEARCH WORKERS *)

Definition fetch_global_try (net : network) (query : string) (page : Z)
  : res (list value) :=
  r <- requests_get net (GlobalSearch query page) ;;
  let (status_code, body) := r in
  if negb (status_code =? 200) then Ok []
  else
    data <- r_json body ;;
    match data with
    | VList l => Ok l
    | VDict d => Ok (filter is_dict (map snd d))
    | _ => Ok []
    end.

Definition fetch_global (net : network) (query : string) (page : Z) : list value :=
  try_except (fetch_global_try net query page) [].

(** The loop of [fetch_artist] over [data], [matches] being the list built
    so far. *)
Fixpoint artist_matches (query : string) (data matches : list value)
  : res (list value) :=
  match data with
  | [] => Ok matches
  | t :: data' =>
      if is_dict t then
        score <- calculate_score query t ;;
        keep <- py_gt score (VInt 45) ;;
        if keep
        then artist_matches query data' (matches ++ [py_setitem t "_score" score])
        else artist_matches query data' matches
      else artist_matches query data' matches
  end.

Definition fetch_artist_try (net : network) (artist query : string)
  : res (list value) :=
  r <- requests_get net (ArtistTracks artist) ;;
  data <- r_json (snd r) ;;
  match data with
  | VList l => artist_matches query l []
  | _ => Ok []
  end.

Definition fetch_artist (net : network) (artist query : string) : list value :=
  try_except (fetch_artist_try net artist query) [].

(* ------------------------------------------------------------------ *)
(** ** SEARCH_CACHE

    [TTLCache(maxsize=3000, ttl=1800)] of cachetools, as its documentation
    describes it: an entry expires [ttl] seconds after it was stored, an
    expired entry is neither found nor returned, and storing a new key in a
    full cache first drops the least recently used entries.  The list holds
    the least recently used entry first; [now] is the cache's timer read
    during the operation. *)

Record cache_entry : Type := {
  ce_key : string;
  ce_expires : Q;
  ce_value : list value
}.

Definition ttl_cache : Type := list cache_entry.

Fixpoint cache_find (c : ttl_cache) (k : string) : option cache_entry :=
  match c with
  | [] => None
  | e :: c' => if String.eqb (ce_key e) k then Some e else cache_find c' k
  end.

Definition cache_remove (c : ttl_cache) (k : string) : ttl_cache :=
  filter (fun e => negb (String.eqb (ce_key e) k)) c.

Definition cache_expire (now : Q) (c : ttl_cache) : ttl_cache :=
  filter (fun e => Qltb now (ce_expires e)) c.

(** [k in cache]. *)
Definition cache_contains (now : Q) (c : ttl_cache) (k : string) : bool :=
  match cache_find c k with
  | Some e => Qltb now (ce_expires e)
  | None => false
  end.

(** [cache[k]]: the entry becomes the most recently used one. *)
Definition cache_getitem (now : Q) (c : ttl_cache) (k : string)
  : res (list value) * ttl_cache :=
  match cache_find c k with
  | None => (Raise KeyError, c)
  | Some e =>
      let c' := cache_remove c k ++ [e] in
      if Qltb now (ce_expires e) then (Ok (ce_value e), c') else (Raise KeyError, c')
  end.

(** [cache[k] = v]. *)
Definition cache_setitem (now : Q) (c : ttl_cache) (k : string) (v : list value)
  : ttl_cache :=
  let live := cache_expire now c in
  let room :=
    match cache_find live k with
    | Some _ => cache_remove live k
    | None => skipn (List.length live + 1 - CACHE_MAXSIZE) live
    end in
  room ++ [{| ce_key := k; ce_expires := (now + CACHE_TTL)%Q; ce_value := v |}].

(* ------------------------------------------------------------------ *)
(** ** The [/search] route *)

(** A call submitted to the executor. *)
Inductive task : Type :=
| FetchGlobal (query : string) (page : Z)
| FetchArtist (artist query : string).

Definition run_task (net : network) (t : task) : list value :=
  match t with
  | FetchGlobal query page => fetch_global net query page
  | FetchArtist artist query => fetch_artist net artist query
  end.

Fixpoint take_nth {A : Type} (i : nat) (l : list A) : option (A * list A) :=
  match l, i with
  | [], _ => None
  | x :: l', O => Some (x, l')
  | x :: l', S i' =>
      match take_nth i' l' with
      | Some (y, rest) => Some (y, x :: rest)
      | None => None
      end
  end.

(** [as_completed(futures)]: [order] names, step by step, which of the
    futures still pending completes next (an index out of range is skipped);
    the futures left over complete in submission order. *)
Fixpoint as_completed {A : Type} (order : list nat) (pending : list A) : list A :=
  match order with
  | [] => pending
  | i :: order' =>
      match take_nth i pending with
      | Some (x, rest) => x :: as_completed order' rest
      | None => as_completed order' pending
      end
  end.

(** [results] and [seen_ids] of the gathering loop. *)
Record collected : Type := {
  results : list value;
  seen_ids : list value
}.

(** [if '_score' not in t: t['_score'] = calculate_score(q, t)]. *)
Definition ensure_score (q : string) (t : value) : res value :=
  if negb (has_key "_score" t)
  then score <- calculate_score q t ;; Ok (py_setitem t "_score" score)
  else Ok t.

(** [t['_score'] > 45]. *)
Definition above_floor (t : value) : res bool :=
  score <- py_getitem t "_score" ;; py_gt score (VInt 45).

(** [tid and tid not in seen_ids]. *)
Definition unseen (tid : value) (seen : list value) : res bool :=
  if truthy tid
  then found <- set_contains tid seen ;; Ok (negb found)
  else Ok false.

(** The body of [for t in tracks]. *)
Definition collect_track (q : string) (st : collected) (t : value) : res collected :=
  tid <- py_get t "id" VNone ;;
  fresh <- unseen tid (seen_ids st) ;;
  if fresh then
    t' <- ensure_score q t ;;
    keep <- above_floor t' ;;
    if keep
    then Ok {| results := results st ++ [t'];
               seen_ids := set_add tid (seen_ids st) |}
    else Ok st
  else Ok st.

(** [for future in as_completed(futures): for t in future.result(): ...] *)
Definition collect (q : string) (batches : list (list value)) : res collected :=
  foldM (collect_track q) {| results := []; seen_ids := [] |} (List.concat batches).

(** [int(x.get('playback_count', 0))] and the sort key
    [(x.get('_score', 0), int(x.get('playback_count', 0)))].
    Tuples are compared only once every key is built; a first component
    that is not a number would raise there.  [collect_scores_numeric] shows
    that no collected item has one. *)
Definition popularity (x : value) : res Z :=
  playback_count <- py_get x "playback_count" (VInt 0) ;;
  py_int playback_count.

Definition sort_key (x : value) : res (Q * Z) :=
  score <- py_get x "_score" (VInt 0) ;;
  plays <- popularity x ;;
  match num_of score with
  | Some s => Ok (s, plays)
  | None => Raise TypeError
  end.

(** [a > b] on keys: tuples compare lexicographically. *)
Definition key_gt (a b : Q * Z) : bool :=
  Qltb (fst b) (fst a) || Qeq_bool (fst a) (fst b) && (snd b <? snd a).

(** [list.sort(key=..., reverse=True)] is stable: of two items with equal
    keys the one that came first stays first.  The stable descending order
    of a list is unique, so an insertion sort stands for Timsort. *)
Fixpoint insert_desc {A : Type} (x : (Q * Z) * A) (l : list ((Q * Z) * A))
  : list ((Q * Z) * A) :=
  match l with
  | [] => [x]
  | y :: l' => if key_gt (fst y) (fst x) then y :: insert_desc x l' else x :: l
  end.

Fixpoint sort_desc {A : Type} (l : list ((Q * Z) * A)) : list ((Q * Z) * A) :=
  match l with
  | [] => []
  | x :: l' => insert_desc x (sort_desc l')
  end.

Definition rank (items : list value) : res (list value) :=
  keyed <- mapM (fun x => k <- sort_key x ;; Ok (k, x)) items ;;
  Ok (map snd (sort_desc keyed)).

(** The three readings of the cache's timer one request can make. *)
Record clock : Type := {
  t_check : Q;   (* [q in SEARCH_CACHE] *)
  t_read : Q;    (* [SEARCH_CACHE[q]] *)
  t_store : Q    (* [SEARCH_CACHE[q] = final_results] *)
}.

(** What one request meets: the remote service, the order in which the
    futures complete, and the clock. *)
Record world : Type := {
  w_net : network;
  w_order : list nat;
  w_clock : clock
}.

(** What one request does: its response (the list handed to [jsonify], or
    the exception that escapes), the cache it leaves, the fetches it
    submitted. *)
Record outcome : Type := {
  response : res (list value);
  cache_after : ttl_cache;
  dispatched : list task
}.

Definition normalize (raw : option string) : string :=
  lower (strip (match raw with Some s => s | None => "" end)).

Definition submit_all (artists : list string) (q : string) : list task :=
  map (FetchGlobal q) [1; 2; 3] ++ map (fun artist => FetchArtist artist q) (firstn 20 artists).

(** [artists] is [KNOWN_ARTISTS] as [random.shuffle] left it at start-up. *)
Definition search (artists : list string) (w : world) (raw : option string)
    (cache : ttl_cache) : outcome :=
  let q := normalize raw in
  if (String.length q <? 2)%nat then
    {| response := Ok []; cache_after := cache; dispatched := [] |}
  else if cache_contains (t_check (w_clock w)) cache q then
    let (r, cache') := cache_getitem (t_read (w_clock w)) cache q in
    {| response := r; cache_after := cache'; dispatched := [] |}
  else
    let futures := submit_all artists q in
    let batches := map (run_task (w_net w)) (as_completed (w_order w) futures) in
    match st <- collect q batches ;; rank (results st) with
    | Raise e => {| response := Raise e; cache_after := cache; dispatched := futures |}
    | Ok ranked =>
        let final_results := firstn 150 ranked in
        {| response := Ok final_results;
           cache_after := cache_setitem (t_store (w_clock w)) cache q final_results;
           dispatched := futures |}
    end.

(** The route from the cache look-up on, for a normalized query [q] of two
    characters or more. *)
Definition search_query (artists : list string) (w : world) (q : string)
    (cache : ttl_cache) : outcome :=
  if cache_contains (t_check (w_clock w)) cache q then
    let (r, cache') := cache_getitem (t_read (w_clock w)) cache q in
    {| response := r; cache_after := cache'; dispatched := [] |}
  else
    let futures := submit_all artists q in
    let batches := map (run_task (w_net w)) (as_completed (w_order w) futures) in
    match st <- collect q batches ;; rank (results st) with
    | Raise e => {| response := Raise e; cache_after := cache; dispatched := futures |}
    | Ok ranked =>
        let final_results := firstn 150 ranked in
        {| response := Ok final_results;
           cache_after := cache_setitem (t_store (w_clock w)) cache q final_results;
           dispatched := futures |}
    end.

(** The route, the raw query being a text: [len(q)] counts the code points
    of the trimmed, lower-cased query. *)
Definition search_text (artists : list string) (w : world) (raw : option text)
    (cache : ttl_cache) : outcome :=
  let q := normalize_text raw in
  if (List.length q <? 2)%nat then
    {| response := Ok []; cache_after := cache; dispatched := [] |}
  else search_query artists w (encode q) cache.

(** The caches a process can hold: empty at start-up, then whatever the
    requests served so far have left. *)
Inductive reachable (artists : list string) : ttl_cache -> Prop :=
| reach_start : reachable artists []
| reach_request : forall w raw cache,
    reachable artists cache ->
    reachable artists (cache_after (search artists w raw cache)).

End Pipeline.

(* ------------------------------------------------------------------ *)
(** ** Vocabulary of the statements *)

(** A similarity measure that answers [r] whatever it is given: the
    stand-in for [fuzz.token_set_ratio] in the worked examples. *)
Definition flat_ratio (r : Q) : string -> string -> Q := fun _ _ => r.

(** The item is a record whose title and owner name, where present, are
    strings: what [calculate_score] needs to read it. *)
Definition scorable (t : value) : bool :=
  match t with
  | VDict d =>
      match dict_get d "title" with
      | None | Some (VStr _) => true
      | _ => false
      end &&
      match dict_get d "user" with
      | None => true
      | Some (VDict u) =>
          match dict_get u "username" with
          | None | Some (VStr _) => true
          | _ => false
          end
      | _ => false
      end
  | _ => false
  end.

(** Rule 2 of the scorer: at least two parts, each found in [combined]. *)
Definition split_match (query combined : string) : bool :=
  (1 <? List.length (split query))%nat
  && forallb (fun part => substr_in part combined) (split query).

(** [t.get('id')], read as [None] on what is no record. *)
Definition track_id (t : value) : value :=
  try_except (py_get t "id" VNone) VNone.

(** The class of a hashable object under [==]: equal numbers of any type
    share one reduced fraction. *)
Inductive ident : Type :=
| IdNone
| IdNum (q : Q)
| IdStr (s : string)
| IdOther.

Definition ident_of (v : value) : ident :=
  match v with
  | VNone => IdNone
  | VStr s => IdStr s
  | _ => match num_of v with
         | Some q => IdNum (Qred q)
         | None => IdOther
         end
  end.

(** The number under an item's ["_score"]. *)
Definition score_of (x : value) : option Q :=
  match py_get x "_score" (VInt 0) with
  | Ok v => num_of v
  | Raise _ => None
  end.

(** Item [t] gets past the relevance floor, and enters the results as [t']
    (itself, with its score attached). *)
Definition kept_as (tsr : string -> string -> Q) (q : string) (t t' : value) : Prop :=
  ensure_score tsr q t = Ok t' /\ above_floor t' = Ok true.

(** What [collect_track] can do with one item. *)
Inductive track_fate (tsr : string -> string -> Q) (q : string)
    (st : collected) (t : value) (st' : collected) : Prop :=
| fate_no_identity (tid : value) :
    py_get t "id" VNone = Ok tid -> truthy tid = false ->
    st' = st -> track_fate tsr q st t st'
| fate_duplicate (tid : value) :
    py_get t "id" VNone = Ok tid -> truthy tid = true -> hashable tid = true ->
    existsb (py_eq tid) (seen_ids st) = true ->
    st' = st -> track_fate tsr q st t st'
| fate_below_floor (tid t' : value) :
    py_get t "id" VNone = Ok tid -> truthy tid = true -> hashable tid = true ->
    existsb (py_eq tid) (seen_ids st) = false ->
    ensure_score tsr q t = Ok t' -> above_floor t' = Ok false ->
    st' = st -> track_fate tsr q st t st'
| fate_kept (tid t' : value) :
    py_get t "id" VNone = Ok tid -> truthy tid = true -> hashable tid = true ->
    existsb (py_eq tid) (seen_ids st) = false ->
    kept_as tsr q t t' ->
    st' = {| results := results st ++ [t']; seen_ids := set_add tid (seen_ids st) |} ->
    track_fate tsr q st t st'.

(** The keyed item [a] may stand right before [b]: [b]'s key is not the
    greater one. *)
Definition precedes {A : Type} (a b : (Q * Z) * A) : Prop :=
  key_gt (fst b) (fst a) = false.

(** [a] may stand right before [b] in a ranking. *)
Definition ordered (a b : value) : Prop :=
  exists sa sb pa pb,
    score_of a = Some sa /\ score_of b = Some sb /\
    popularity a = Ok pa /\ popularity b = Ok pb /\
    ((sb < sa)%Q \/ ((sa == sb)%Q /\ pb <= pa)).

(** The items of one aggregation run, in the order the loop meets them. *)
Definition fetched (tsr : string -> string -> Q) (artists : list string)
    (w : world) (q : string) : list value :=
  List.concat (map (run_task tsr (w_net w))
                   (as_completed (w_order w) (submit_all artists q))).

(** [r] is what a run that goes to the network computes for [q]. *)
Definition fresh_result (tsr : string -> string -> Q) (artists : list string)
    (w : world) (q : string) (r : list value) : Prop :=
  exists st ranked,
    foldM (collect_track tsr q) {| results := []; seen_ids := [] |}
          (fetched tsr artists w q) = Ok st /\
    rank (results st) = Ok ranked /\
    r = firstn 150 ranked.


(** What the gathering loop maintains, [pre] being the items met so far:
    every seen identity is hashable; every result has an identity, recorded
    as seen, and a score above the floor; no two results share an identity;
    every item met that would pass the floor has its identity recorded; and
    every result is the first item of its identity to pass the floor. *)
Definition collect_inv (tsr : string -> string -> Q) (q : string)
    (st : collected) (pre : list value) : Prop :=
  Forall (fun s => hashable s = true) (seen_ids st) /\
  Forall (fun r => truthy (track_id r) = true /\
                   hashable (track_id r) = true /\
                   above_floor r = Ok true /\
                   In (ident_of (track_id r)) (map ident_of (seen_ids st)))
         (results st) /\
  NoDup (map (fun r => ident_of (track_id r)) (results st)) /\
  (forall u u', In u pre -> kept_as tsr q u u' -> truthy (track_id u) = true ->
                In (ident_of (track_id u)) (map ident_of (seen_ids st))) /\
  (forall r, In r (results st) ->
     exists pre1 t post,
       pre = pre1 ++ t :: post /\ kept_as tsr q t r /\
       forall u u', In u pre1 -> py_eq (track_id u) (track_id t) = true ->
                    ~ kept_as tsr q u u').

(** An upper-case ASCII letter, and a string that holds one. *)
Definition is_upper (c : ascii) : bool :=
  let n := nat_of_ascii c in ((65 <=? n) && (n <=? 90))%nat.

Fixpoint has_upper (s : string) : bool :=
  match s with
  | EmptyString => false
  | String c s' => is_upper c || has_upper s'
  end.

(** Two sort keys are equal, and an item has the sort key [k]. *)
Definition key_eqb (a b : Q * Z) : bool :=
  Qeq_bool (fst a) (fst b) && (snd a =? snd b).

Definition has_key_value (k : Q * Z) (x : value) : bool :=
  match sort_key x with
  | Ok k' => key_eqb k k'
  | Raise _ => false
  end.

(* ------------------------------------------------------------------ *)
(** ** Worked inputs *)

(** The item of the specification's scenario: downloadable, its title the
    query's words in another order. *)
Definition wakhra_track : value :=
  VDict [ ("id", VInt 42);
          ("title", VStr "Wakhra Swag Remix");
          ("user", VDict [("username", VStr "djX")]);
          ("download_url", VStr "https://hearthis.at/djx/wakhra/download/");
          ("playback_count", VStr "1000") ].

(** Three more items.  The first two share the identity 7; the third has
    the identity 7.0, the same one under [==]. *)
Definition zzz_track : value :=
  VDict [ ("id", VInt 7); ("title", VStr "zzz") ].

Definition swag_mashup : value :=
  VDict [ ("id", VInt 7); ("title", VStr "Swag Mashup");
          ("playback_count", VInt 2500) ].

Definition swag_again : value :=
  VDict [ ("id", VFloat (7 # 1)); ("title", VStr "Swag Again") ].

(** An item whose popularity counter is not a number. *)
Definition unplayed_track : value :=
  VDict [ ("id", VInt 1); ("title", VStr "abc"); ("playback_count", VStr "n/a") ].

(** An item as a run returns it, with its score attached. *)
Definition scored (t : value) (score : Z) : value :=
  py_setitem t "_score" (VInt score).

(** A record whose title is [null]: the scorer cannot read it. *)
Definition untitled_track : value :=
  VDict [ ("id", VInt 9); ("title", VNone) ].

(** A remote service that is down. *)
Definition offline : network := fun _ => NetworkError.

(** A remote service that answers every call with [status_code] and the
    JSON array [items]. *)
Definition answering (status_code : Z) (items : list value) : network :=
  fun _ => Response status_code (Some (VList items)).

(** A remote service whose first page of the global search holds [items]
    and whose every other call fails. *)
Definition first_page_only (items : list value) : network :=
  fun rq =>
    match rq with
    | GlobalSearch _ 1 => Response 200 (Some (VList items))
    | _ => NetworkError
    end.

Definition at_time (t : Q) : clock := {| t_check := t; t_read := t; t_store := t |}.

(** A request served at time [t], its futures completing in submission
    order. *)
Definition served (net : network) (t : Q) : world :=
  {| w_net := net; w_order := []; w_clock := at_time t |}.

(* ------------------------------------------------------------------ *)
(** ** Strings *)

Lemma lower_char_idem (c : ascii) : lower_char (lower_char c) = lower_char c.
Proof. destruct c as [[] [] [] [] [] [] [] []]; reflexivity. Qed.

Lemma lower_idem (s : string) : lower (lower s) = lower s.
Proof.
  induction s as [|c s IH]; simpl; [reflexivity|].
  now rewrite lower_char_idem, IH.
Qed.

Lemma prefix_lower (p s : string) :
  String.prefix p s = true -> String.prefix (lower p) (lower s) = true.
Proof.
  revert s; induction p as [|c p IH]; intros [|d s]; simpl; try easy.
  destruct (ascii_dec c d) as [->|]; [|discriminate].
  destruct (ascii_dec (lower_char d) (lower_char d)); [auto|congruence].
Qed.

Lemma substr_in_lower (p s : string) :
  substr_in p s = true -> substr_in (lower p) (lower s) = true.
Proof.
  induction s as [|c s IH]; simpl; rewrite !orb_true_iff.
  - intros [H|H]; [left|discriminate]. now apply (prefix_lower p "").
  - intros [H|H]; [left|right; auto]. now apply (prefix_lower p (String c s)).
Qed.

Lemma normalize_lower (raw : option string) : lower (normalize raw) = normalize raw.
Proof. apply lower_idem. Qed.

(* ------------------------------------------------------------------ *)
(** ** Dictionaries *)

Lemma dict_get_set_same d k v : dict_get (dict_set d k v) k = Some v.
Proof.
  induction d as [|[k' v'] d IH]; simpl.
  - now rewrite String.eqb_refl.
  - destruct (String.eqb k' k) eqn:E; simpl.
    + now rewrite String.eqb_refl.
    + now rewrite E.
Qed.

Lemma dict_get_set_other d k k' v :
  k <> k' -> dict_get (dict_set d k v) k' = dict_get d k'.
Proof.
  intros Hk. induction d as [|[k0 v0] d IH]; simpl.
  - destruct (String.eqb_spec k k'); [contradiction|reflexivity].
  - destruct (String.eqb_spec k0 k) as [->|]; simpl.
    + destruct (String.eqb_spec k k'); [contradiction|reflexivity].
    + now rewrite IH.
Qed.

Lemma py_get_dict x k dflt v : py_get x k dflt = Ok v -> exists d, x = VDict d.
Proof. destruct x; simpl; try discriminate. eauto. Qed.

(* ------------------------------------------------------------------ *)
(** ** The scorer *)

Section ScorerFacts.

Variable tsr : string -> string -> Q.

(** The scorer answers exactly on the records it can read. *)
Lemma calculate_score_total q t :
  scorable t = true <-> exists v, calculate_score tsr q t = Ok v.
Proof.
  unfold calculate_score, scorable.
  destruct t as [| | | | | |d]; simpl;
    try (split; [discriminate | intros [v Hv]; discriminate]).
  destruct (dict_get d "title") as [[| | | |title| |]|]; simpl;
    try (split; [discriminate | intros [v Hv]; discriminate]).
  all: destruct (dict_get d "user") as [[| | | | | |u]|]; simpl;
    try (split; [discriminate | intros [v Hv]; discriminate]).
  all: try (destruct (dict_get u "username") as [[| | | |name| |]|]; simpl;
    try (split; [discriminate | intros [v Hv]; discriminate])).
  all: split; [intros _|reflexivity].
  all: repeat match goal with
       | |- context [if ?b then _ else _] => destruct b
       end; eauto.
Qed.

Lemma calculate_score_range
    (Hrange : forall a b, (0 <= tsr a b <= 100)%Q) q t v :
  calculate_score tsr q t = Ok v ->
  exists x, num_of v = Some x /\ (0 <= x <= 105)%Q.
Proof.
  unfold calculate_score.
  destruct (py_get t "title" (VStr "")) as [tv|]; simpl; [|discriminate].
  destruct (py_lower tv) as [title|]; simpl; [|discriminate].
  destruct (py_get t "user" (VDict [])) as [uv|]; simpl; [|discriminate].
  destruct (py_get uv "username" (VStr "")) as [nv|]; simpl; [|discriminate].
  destruct (py_lower nv) as [user|]; simpl; [|discriminate].
  destruct (substr_in q title).
  { intros [= <-]. exists (inject_Z 100). split; [reflexivity|]. split; discriminate. }
  destruct (_ && _).
  { intros [= <-]. exists (inject_Z 95). split; [reflexivity|]. split; discriminate. }
  destruct (py_get t "download_url" VNone) as [dl|]; simpl; [|discriminate].
  intros [= <-]. simpl.
  pose proof (Hrange q (String.append title (String.append " " user))) as [H0 H1].
  simpl in H0, H1.
  destruct (truthy dl); (eexists; split; [reflexivity|]); lra.
Qed.

End ScorerFacts.

(** C5: when the normalized query is a literal substring of the item's title
    (as received, or as the scorer lower-cases it), the scorer cannot answer
    anything but 100, and it does answer 100 on every record it can read,
    whether or not the item carries a download URL. *)
Theorem exact_match_scores_100
    (tsr : string -> string -> Q) (raw : option string) (track : value) (title : string) :
  py_get track "title" (VStr "") = Ok (VStr title) ->
  substr_in (normalize raw) title = true \/
  substr_in (normalize raw) (lower title) = true ->
  (forall v, calculate_score tsr (normalize raw) track = Ok v -> v = VInt 100) /\
  (scorable track = true -> calculate_score tsr (normalize raw) track = Ok (VInt 100)).
Proof.
  intros Ht Hsub.
  assert (Hin : substr_in (normalize raw) (lower title) = true).
  { destruct Hsub as [H|H]; [|exact H].
    rewrite <- normalize_lower. now apply substr_in_lower. }
  assert (Hall : forall v, calculate_score tsr (normalize raw) track = Ok v -> v = VInt 100).
  { intros v. unfold calculate_score. rewrite Ht. simpl.
    destruct (py_get track "user" (VDict [])) as [uv|]; simpl; [|discriminate].
    destruct (py_get uv "username" (VStr "")) as [nv|]; simpl; [|discriminate].
    destruct (py_lower nv) as [user|]; simpl; [|discriminate].
    rewrite Hin. now intros [= <-]. }
  split; [exact Hall|].
  intros Hs. apply (calculate_score_total tsr (normalize raw)) in Hs as [v Hv].
  now rewrite Hv, (Hall v Hv).
Qed.

Lemma exact_match_scores_100_witness :
  calculate_score (flat_ratio 0) (normalize (Some " Swag ")) wakhra_track = Ok (VInt 100).
Proof.
  apply (proj2 (exact_match_scores_100 (flat_ratio 0) (Some " Swag ") wakhra_track
                  "Wakhra Swag Remix" eq_refl (or_intror eq_refl))).
  reflexivity.
Defined.

(** C10: given that the similarity ratio lies in 0..100, whatever the scorer
    returns is a number between 0 and 105, and it does return on every record
    it can read. *)
Theorem score_between_0_and_105
    (tsr : string -> string -> Q)
    (Hrange : forall a b, (0 <= tsr a b <= 100)%Q)
    (q : string) (track : value) :
  (forall v, calculate_score tsr q track = Ok v ->
             exists x, num_of v = Some x /\ (0 <= x <= 105)%Q) /\
  (scorable track = true -> exists v, calculate_score tsr q track = Ok v).
Proof.
  split.
  - intros v. now apply calculate_score_range.
  - apply calculate_score_total.
Qed.

Lemma flat_ratio_range (r : Q) :
  (0 <= r <= 100)%Q -> forall a b, (0 <= flat_ratio r a b <= 100)%Q.
Proof. intros H a b. exact H. Qed.

Lemma score_between_0_and_105_witness :
  calculate_score (flat_ratio 100) "zzz" wakhra_track = Ok (VFloat (100 + 5)) /\
  exists x, num_of (VFloat (100 + 5)) = Some x /\ (0 <= x <= 105)%Q.
Proof.
  split; [reflexivity|].
  apply (proj1 (score_between_0_and_105 (flat_ratio 100)
                  (flat_ratio_range 100 ltac:(split; discriminate))
                  "zzz" wakhra_track)).
  reflexivity.
Defined.

(** C2, as amended: the download bonus belongs to the fuzzy branch alone.
    An item that the exact-match rule does not claim scores 95 when the
    split-match rule fires, downloadable or not; otherwise it scores the
    similarity ratio, plus 5 exactly when it carries a download URL. *)
Theorem download_bonus_on_fuzzy_branch_only
    (tsr : string -> string -> Q) (q : string) (track : value)
    (title user : string) (download_url : value) :
  py_get track "title" (VStr "") = Ok (VStr title) ->
  (u <- py_get track "user" (VDict []) ;; py_get u "username" (VStr "")) = Ok (VStr user) ->
  py_get track "download_url" VNone = Ok download_url ->
  substr_in q (lower title) = false ->
  let combined := String.append (lower title) (String.append " " (lower user)) in
  (split_match q combined = true ->
     calculate_score tsr q track = Ok (VInt 95)) /\
  (split_match q combined = false -> truthy download_url = true ->
     calculate_score tsr q track = Ok (VFloat (tsr q combined + 5))) /\
  (split_match q combined = false -> truthy download_url = false ->
     calculate_score tsr q track = Ok (VFloat (tsr q combined))).
Proof.
  intros Ht Hu Hd Hex combined. subst combined.
  unfold split_match, calculate_score.
  rewrite Ht. cbn [bind py_lower].
  destruct (py_get track "user" (VDict [])) as [uv|]; [|discriminate].
  cbn [bind] in Hu |- *. rewrite Hu. cbn [bind py_lower].
  rewrite Hex, Hd. cbn [bind].
  repeat split; intros Hs; rewrite Hs; try reflexivity.
  all: intros Hdl; now rewrite Hdl.
Qed.

Lemma download_bonus_on_fuzzy_branch_only_witness :
  calculate_score (flat_ratio 60) "swag wakhra" wakhra_track = Ok (VInt 95) /\
  calculate_score (flat_ratio 60) "tere bina" wakhra_track = Ok (VFloat (60 + 5)).
Proof.
  split.
  - apply (proj1 (download_bonus_on_fuzzy_branch_only (flat_ratio 60) "swag wakhra"
                    wakhra_track "Wakhra Swag Remix" "djX"
                    (VStr "https://hearthis.at/djx/wakhra/download/")
                    eq_refl eq_refl eq_refl eq_refl)).
    reflexivity.
  - apply (proj1 (proj2 (download_bonus_on_fuzzy_branch_only (flat_ratio 60) "tere bina"
                    wakhra_track "Wakhra Swag Remix" "djX"
                    (VStr "https://hearthis.at/djx/wakhra/download/")
                    eq_refl eq_refl eq_refl eq_refl))); reflexivity.
Defined.

(** C2, as stated, fails on the specification's own scenario: the item is
    downloadable and every word of "swag wakhra" is in its title, yet the
    split-match rule returns 95 before the bonus is reached. *)
Lemma split_match_downloadable_scores_95 :
  py_get wakhra_track "download_url" VNone
    = Ok (VStr "https://hearthis.at/djx/wakhra/download/") /\
  substr_in "swag wakhra" "wakhra swag remix" = false /\
  split_match "swag wakhra" "wakhra swag remix djx" = true /\
  calculate_score (flat_ratio 0) "swag wakhra" wakhra_track = Ok (VInt 95) /\
  calculate_score (flat_ratio 100) "swag wakhra" wakhra_track <> Ok (VInt 100).
Proof. repeat split; try reflexivity. discriminate. Qed.

(* ------------------------------------------------------------------ *)
(** ** The fetchers *)

(** X1: the broad fetch is fail-soft: a failed call, a status other than
    200, an undecodable body and a payload that is neither an array nor an
    object all give the empty list. *)
Lemma fetch_global_fail_soft (net : network) (q : string) (page : Z) :
  net (GlobalSearch q page) = NetworkError \/
  (exists status body, net (GlobalSearch q page) = Response status body /\
     (status <> 200 \/ body = None \/
      exists data, body = Some data /\
        match data with VList _ | VDict _ => False | _ => True end)) ->
  fetch_global net q page = [].
Proof.
  unfold fetch_global, fetch_global_try, requests_get.
  intros [->|(status & body & -> & H)]; [reflexivity|]. cbn [bind].
  destruct (Z.eqb_spec status 200) as [->|Hne]; simpl; [|reflexivity].
  destruct H as [H|[->|(data & -> & H)]]; [contradiction|reflexivity|].
  destruct data; simpl; try reflexivity; contradiction.
Qed.

(** X2: the entity fetch gives the empty list on a failed call, an
    undecodable body and a payload that is not an array, whatever the
    status code. *)
Lemma fetch_artist_fail_soft
    (tsr : string -> string -> Q) (net : network) (artist q : string) :
  net (ArtistTracks artist) = NetworkError \/
  (exists status body, net (ArtistTracks artist) = Response status body /\
     (body = None \/
      exists data, body = Some data /\ match data with VList _ => False | _ => True end)) ->
  fetch_artist tsr net artist q = [].
Proof.
  unfold fetch_artist, fetch_artist_try, requests_get.
  intros [->|(status & body & -> & H)]; [reflexivity|]. cbn [bind snd].
  destruct H as [->|(data & -> & H)]; [reflexivity|].
  destruct data; simpl; try reflexivity; contradiction.
Qed.

(** C3: the entity fetch never looks at the status code.  Answered with
    HTTP 503 and a JSON array, [fetch_artist] returns the matching item of
    that array, where [fetch_global], given the same answer, returns the
    empty list. *)
Theorem fetch_artist_ignores_status :
  fetch_artist (flat_ratio 0) (answering 503 [wakhra_track]) "djnyk" "swag"
    = [py_setitem wakhra_track "_score" (VInt 100)] /\
  fetch_global (answering 503 [wakhra_track]) "swag" 1 = [].
Proof. split; reflexivity. Qed.

(* ------------------------------------------------------------------ *)
(** ** Loops *)

Lemma foldM_prefix_invariant {A S : Type} (f : S -> A -> res S) (I : S -> list A -> Prop) :
  (forall s pre x s', I s pre -> f s x = Ok s' -> I s' (pre ++ [x])) ->
  forall l pre s0 s, I s0 pre -> foldM f s0 l = Ok s -> I s (pre ++ l).
Proof.
  intros Hstep. induction l as [|x l IH]; intros pre s0 s H0; simpl.
  - intros [= <-]. now rewrite app_nil_r.
  - destruct (f s0 x) as [s1|] eqn:E; simpl; [|discriminate].
    intros Hl. replace (pre ++ x :: l) with ((pre ++ [x]) ++ l)
      by now rewrite <- app_assoc.
    eapply IH; eauto.
Qed.


Lemma mapM_ok {A B : Type} (f : A -> res B) (l : list A) (l' : list B) :
  mapM f l = Ok l' -> Forall2 (fun x y => f x = Ok y) l l'.
Proof.
  revert l'; induction l as [|x l IH]; simpl; intros l'.
  - intros [= <-]. constructor.
  - destruct (f x) as [y|] eqn:E; simpl; [|discriminate].
    destruct (mapM f l) as [ys|]; simpl; [|discriminate].
    intros [= <-]. constructor; auto.
Qed.


(* ------------------------------------------------------------------ *)
(** ** Identities *)

Lemma num_of_hashable v x : num_of v = Some x -> hashable v = true.
Proof. destruct v; simpl; congruence. Qed.

Lemma py_eq_num a b x y :
  num_of a = Some x -> num_of b = Some y -> py_eq a b = Qeq_bool x y.
Proof.
  destruct a; try discriminate; destruct b; try discriminate; simpl;
    now intros [= <-] [= <-].
Qed.

Lemma ident_of_num v x : num_of v = Some x -> ident_of v = IdNum (Qred x).
Proof. destruct v; try discriminate; simpl; now intros [= <-]. Qed.

(** On hashable objects [==] is equality of classes. *)
Lemma py_eq_ident a b :
  hashable a = true -> hashable b = true ->
  (py_eq a b = true <-> ident_of a = ident_of b).
Proof.
  intros Ha Hb.
  destruct (num_of a) as [x|] eqn:Ea, (num_of b) as [y|] eqn:Eb.
  - rewrite (py_eq_num _ _ _ _ Ea Eb), (ident_of_num _ _ Ea), (ident_of_num _ _ Eb).
    rewrite Qeq_bool_iff, <- Qred_eq_iff. split; [congruence | now intros [= ->]].
  - rewrite (ident_of_num _ _ Ea).
    destruct a; try discriminate; destruct b; try discriminate; simpl; split; discriminate.
  - rewrite (ident_of_num _ _ Eb).
    destruct a; try discriminate; destruct b; try discriminate; simpl; split; discriminate.
  - destruct a; try discriminate; destruct b; try discriminate; simpl;
      try (split; [discriminate|discriminate]); try (split; reflexivity).
    split; [intros H; apply String.eqb_eq in H; congruence
           |intros [= ->]; apply String.eqb_refl].
Qed.

Lemma py_eq_hashable a b : py_eq a b = true -> hashable a = true /\ hashable b = true.
Proof.
  destruct a; destruct b; simpl; try discriminate; auto.
Qed.

Lemma truthy_num v x : num_of v = Some x -> truthy v = negb (Qeq_bool x 0).
Proof.
  destruct v; try discriminate; simpl; intros [= <-]; [|f_equal|reflexivity].
  - now destruct b.
  - unfold Qeq_bool; simpl. now rewrite Z.mul_1_r.
Qed.

(** Equal objects are true together. *)
Lemma py_eq_truthy a b : py_eq a b = true -> truthy a = truthy b.
Proof.
  intros H.
  destruct (num_of a) as [x|] eqn:Ea, (num_of b) as [y|] eqn:Eb.
  - rewrite (py_eq_num _ _ _ _ Ea Eb) in H. apply Qeq_bool_iff in H.
    rewrite (truthy_num _ _ Ea), (truthy_num _ _ Eb). f_equal.
    destruct (Qeq_bool x 0) eqn:E1, (Qeq_bool y 0) eqn:E2; try reflexivity.
    + apply Qeq_bool_iff in E1. apply Qeq_bool_neq in E2.
      exfalso; apply E2. now rewrite <- H.
    + apply Qeq_bool_iff in E2. apply Qeq_bool_neq in E1.
      exfalso; apply E1. now rewrite H.
  - destruct a; try discriminate; destruct b; discriminate.
  - destruct a; try discriminate; destruct b; discriminate.
  - destruct a; try discriminate; destruct b; try discriminate; simpl in *;
      try reflexivity.
    apply String.eqb_eq in H. now subst.
Qed.

Lemma seen_ident x seen :
  hashable x = true -> Forall (fun s => hashable s = true) seen ->
  (existsb (py_eq x) seen = true <-> In (ident_of x) (map ident_of seen)).
Proof.
  intros Hx Hs. rewrite existsb_exists, in_map_iff. split.
  - intros (s & Hin & Heq). exists s. split; [|exact Hin].
    symmetry. apply py_eq_ident; auto. rewrite Forall_forall in Hs; auto.
  - intros (s & Heq & Hin). exists s. split; [exact Hin|].
    apply py_eq_ident; auto. rewrite Forall_forall in Hs; auto.
Qed.

Lemma set_add_hashable x seen :
  hashable x = true -> Forall (fun s => hashable s = true) seen ->
  Forall (fun s => hashable s = true) (set_add x seen).
Proof.
  intros Hx Hs. unfold set_add. destruct (existsb _ _); [exact Hs|].
  apply Forall_app; auto.
Qed.

Lemma set_add_keeps x seen i :
  In i (map ident_of seen) -> In i (map ident_of (set_add x seen)).
Proof.
  unfold set_add. destruct (existsb _ _); [auto|].
  rewrite map_app, in_app_iff. auto.
Qed.

Lemma set_add_holds x seen :
  hashable x = true -> Forall (fun s => hashable s = true) seen ->
  In (ident_of x) (map ident_of (set_add x seen)).
Proof.
  intros Hx Hs. unfold set_add. destruct (existsb _ _) eqn:E.
  - now apply seen_ident.
  - rewrite map_app, in_app_iff. right. now left.
Qed.

(* ------------------------------------------------------------------ *)
(** ** The gathering loop *)

Section Collecting.

Variable tsr : string -> string -> Q.
Variable q : string.

Lemma collect_track_fate st t st' :
  collect_track tsr q st t = Ok st' -> track_fate tsr q st t st'.
Proof.
  unfold collect_track, unseen, set_contains.
  destruct (py_get t "id" VNone) as [tid|] eqn:Eid; simpl; [|discriminate].
  destruct (truthy tid) eqn:Et; simpl.
  2:{ intros [= <-]. eapply fate_no_identity; eauto. }
  destruct (hashable tid) eqn:Eh; simpl; [|discriminate].
  destruct (existsb (py_eq tid) (seen_ids st)) eqn:Es; simpl.
  { intros [= <-]. eapply fate_duplicate; eauto. }
  destruct (ensure_score tsr q t) as [t'|] eqn:Ee; simpl; [|discriminate].
  destruct (above_floor t') as [[]|] eqn:Ea; simpl; [| |discriminate].
  - intros [= <-]. eapply fate_kept; eauto. split; auto.
  - intros [= <-]. eapply fate_below_floor; eauto.
Qed.

Lemma calculate_score_dict t v :
  calculate_score tsr q t = Ok v -> exists d, t = VDict d.
Proof.
  unfold calculate_score.
  destruct (py_get t "title" (VStr "")) eqn:E; simpl; [|discriminate].
  intros _. eapply py_get_dict; eauto.
Qed.

Lemma calculate_score_numeric t v :
  calculate_score tsr q t = Ok v -> exists x, num_of v = Some x.
Proof.
  unfold calculate_score.
  destruct (py_get t "title" (VStr "")) as [tv|]; simpl; [|discriminate].
  destruct (py_lower tv) as [title|]; simpl; [|discriminate].
  destruct (py_get t "user" (VDict [])) as [uv|]; simpl; [|discriminate].
  destruct (py_get uv "username" (VStr "")) as [nv|]; simpl; [|discriminate].
  destruct (py_lower nv) as [user|]; simpl; [|discriminate].
  destruct (substr_in q title); [intros [= <-]; simpl; eauto|].
  destruct (_ && _); [intros [= <-]; simpl; eauto|].
  destruct (py_get t "download_url" VNone) as [dl|]; simpl; [|discriminate].
  intros [= <-]; simpl; eauto.
Qed.

(** Attaching the score touches no other field. *)
Lemma ensure_score_get t t' k dflt :
  ensure_score tsr q t = Ok t' -> k <> "_score" ->
  py_get t' k dflt = py_get t k dflt.
Proof.
  unfold ensure_score. intros H Hk.
  destruct (has_key "_score" t); simpl in H; [now inversion H|].
  destruct (calculate_score tsr q t) as [s|] eqn:E; simpl in H; [|discriminate].
  inversion H; subst t'; clear H.
  destruct (calculate_score_dict _ _ E) as [d ->]. simpl.
  rewrite dict_get_set_other; auto.
Qed.

Lemma ensure_score_id t t' : ensure_score tsr q t = Ok t' -> track_id t' = track_id t.
Proof.
  intros H. unfold track_id. now rewrite (ensure_score_get _ _ "id" VNone H).
Qed.

Lemma ensure_score_popularity t t' :
  ensure_score tsr q t = Ok t' -> popularity t' = popularity t.
Proof.
  intros H. unfold popularity.
  now rewrite (ensure_score_get _ _ "playback_count" (VInt 0) H).
Qed.

Lemma track_id_get t tid : py_get t "id" VNone = Ok tid -> track_id t = tid.
Proof. unfold track_id. now intros ->. Qed.

Lemma collect_inv_start : collect_inv tsr q {| results := []; seen_ids := [] |} [].
Proof.
  repeat split; simpl; try constructor; intros; contradiction.
Qed.

Lemma collect_inv_step st pre x st' :
  collect_inv tsr q st pre -> collect_track tsr q st x = Ok st' ->
  collect_inv tsr q st' (pre ++ [x]).
Proof.
  intros (Hseen & Hres & Hnd & Hkeep & Hfirst) Hstep.
  assert (Hold : forall r, In r (results st) ->
            exists pre1 t post,
              pre ++ [x] = pre1 ++ t :: post /\ kept_as tsr q t r /\
              forall u u', In u pre1 -> py_eq (track_id u) (track_id t) = true ->
                           ~ kept_as tsr q u u').
  { intros r Hr. destruct (Hfirst r Hr) as (pre1 & t & post & -> & Hk & Hno).
    exists pre1, t, (post ++ [x]). rewrite <- app_assoc. auto. }
  apply collect_track_fate in Hstep.
  destruct Hstep as [tid Hid Ht ->|tid Hid Ht Hh Hs ->
                    |tid t' Hid Ht Hh Hs He Ha ->|tid t' Hid Ht Hh Hs Hk ->].
  - (* no identity *)
    repeat split; auto.
    intros u u' Hin Hku Htu. apply in_app_or in Hin as [Hin|[<-|[]]]; eauto.
    rewrite (track_id_get _ _ Hid) in Htu. congruence.
  - (* duplicate *)
    repeat split; auto.
    intros u u' Hin Hku Htu. apply in_app_or in Hin as [Hin|[<-|[]]]; eauto.
    rewrite (track_id_get _ _ Hid). now apply seen_ident.
  - (* below the floor *)
    repeat split; auto.
    intros u u' Hin Hku Htu. apply in_app_or in Hin as [Hin|[<-|[]]]; eauto.
    destruct Hku as [He' Ha']. congruence.
  - (* kept *)
    destruct Hk as [He Ha].
    assert (Hid' : track_id t' = tid)
      by (rewrite (ensure_score_id _ _ He); now apply track_id_get).
    assert (Hnew : ~ In (ident_of tid) (map ident_of (seen_ids st))).
    { intros Hin. apply seen_ident in Hin; auto. congruence. }
    unfold collect_inv; simpl. split; [|split; [|split; [|split]]].
    + now apply set_add_hashable.
    + apply Forall_app. split.
      * eapply Forall_impl; [|exact Hres]. simpl.
        intros r (H1 & H2 & H3 & H4). repeat split; auto using set_add_keeps.
      * constructor; [|constructor]. rewrite Hid'.
        repeat split; auto. now apply set_add_holds.
    + rewrite map_app. simpl. rewrite Hid'.
      apply NoDup_app_remove_l with (l := []). simpl.
      apply Permutation_NoDup with (l := ident_of tid :: map (fun r => ident_of (track_id r)) (results st)).
      * apply Permutation_cons_append.
      * constructor; [|exact Hnd].
        intros Hin. apply Hnew. apply in_map_iff in Hin as (r & Hr & Hin).
        rewrite Forall_forall in Hres. destruct (Hres r Hin) as (_ & _ & _ & H4).
        now rewrite <- Hr.
    + intros u u' Hin Hku Htu. apply in_app_or in Hin as [Hin|[<-|[]]].
      * apply set_add_keeps. eauto.
      * rewrite (track_id_get _ _ Hid). now apply set_add_holds.
    + intros r Hr. apply in_app_or in Hr as [Hr|[<-|[]]]; [auto|].
      exists pre, x, []. repeat split; auto.
      intros u u' Hin Heq Hku. apply Hnew.
      rewrite (track_id_get _ _ Hid) in Heq.
      destruct (py_eq_hashable _ _ Heq) as [Hhu _].
      assert (Htu : truthy (track_id u) = true)
        by (rewrite (py_eq_truthy _ _ Heq); exact Ht).
      apply py_eq_ident in Heq; auto. rewrite <- Heq. eauto.
Qed.

Lemma collect_invariant items st :
  foldM (collect_track tsr q) {| results := []; seen_ids := [] |} items = Ok st ->
  collect_inv tsr q st items.
Proof.
  intros H.
  apply (foldM_prefix_invariant (collect_track tsr q) (collect_inv tsr q)
           collect_inv_step items [] _ st collect_inv_start H).
Qed.

End Collecting.

(* ------------------------------------------------------------------ *)
(** ** Ranking *)

Lemma Qltb_lt (a b : Q) : Qltb a b = true <-> (a < b)%Q.
Proof.
  unfold Qltb. rewrite negb_true_iff, <- not_true_iff_false, Qle_bool_iff.
  split; [apply Qnot_le_lt | apply Qlt_not_le].
Qed.

Lemma Qltb_ge (a b : Q) : Qltb a b = false <-> (b <= a)%Q.
Proof. unfold Qltb. now rewrite negb_false_iff, Qle_bool_iff. Qed.

(** [b > a] fails exactly when [a] may stand before [b]. *)
Lemma key_gt_false (a b : Q * Z) :
  key_gt b a = false <->
  (fst b < fst a)%Q \/ ((fst a == fst b)%Q /\ snd b <= snd a).
Proof.
  unfold key_gt. rewrite orb_false_iff, andb_false_iff, Qltb_ge, Z.ltb_ge.
  rewrite <- not_true_iff_false, Qeq_bool_iff. split.
  - intros [Hle [Hne|Hp]].
    + left. apply Qle_lteq in Hle as [Hlt|Heq]; [exact Hlt|].
      exfalso. apply Hne. now symmetry.
    + apply Qle_lteq in Hle as [Hlt|Heq]; [now left|right]. split; auto.
      now symmetry.
  - intros [Hlt|[Heq Hp]].
    + split; [now apply Qlt_le_weak|]. left. intros Heq.
      rewrite Heq in Hlt. now apply Qlt_irrefl in Hlt.
    + split; [|now right]. rewrite Heq. apply Qle_refl.
Qed.

Lemma key_gt_asym (a b : Q * Z) : key_gt a b = true -> key_gt b a = false.
Proof.
  unfold key_gt. rewrite orb_true_iff, andb_true_iff, Qltb_lt, Qeq_bool_iff, Z.ltb_lt.
  intros H. apply key_gt_false. destruct H as [Hlt|[Heq Hp]].
  - now left.
  - right. split; [now symmetry | lia].
Qed.

Section Sorting.

Variable A : Type.

Lemma insert_desc_perm (x : (Q * Z) * A) l : Permutation (insert_desc x l) (x :: l).
Proof.
  induction l as [|y l IH]; simpl; [reflexivity|].
  destruct (key_gt (fst y) (fst x)); [|reflexivity].
  rewrite IH. apply perm_swap.
Qed.

Lemma sort_desc_perm (l : list ((Q * Z) * A)) : Permutation (sort_desc l) l.
Proof.
  induction l as [|x l IH]; simpl; [reflexivity|].
  rewrite insert_desc_perm. now constructor.
Qed.

Lemma insert_desc_sorted (x : (Q * Z) * A) l :
  Sorted (@precedes A) l -> Sorted (@precedes A) (insert_desc x l).
Proof.
  induction l as [|y l IH]; simpl; intros Hs.
  - repeat constructor.
  - inversion Hs as [|? ? Hl Hhd]; subst.
    destruct (key_gt (fst y) (fst x)) eqn:E.
    + constructor; [auto|].
      destruct l as [|z l]; simpl.
      * constructor. now apply key_gt_asym.
      * destruct (key_gt (fst z) (fst x)); constructor.
        -- now inversion Hhd.
        -- now apply key_gt_asym.
    + constructor; [exact Hs|]. constructor. exact E.
Qed.

Lemma sort_desc_sorted (l : list ((Q * Z) * A)) : Sorted (@precedes A) (sort_desc l).
Proof.
  induction l as [|x l IH]; simpl; [constructor|]. now apply insert_desc_sorted.
Qed.

End Sorting.



Lemma sort_key_inv (x : value) (s : Q) (p : Z) :
  sort_key x = Ok (s, p) -> score_of x = Some s /\ popularity x = Ok p.
Proof.
  unfold sort_key, score_of.
  destruct (py_get x "_score" (VInt 0)) as [v|]; simpl; [|discriminate].
  destruct (popularity x) as [p'|]; simpl; [|discriminate].
  destruct (num_of v) as [s'|]; [|discriminate].
  now intros [= <- <-].
Qed.


(** The ranking step keeps the items it is given and puts them in order. *)
Lemma rank_spec (items ranked : list value) :
  rank items = Ok ranked -> Permutation ranked items /\ Sorted ordered ranked.
Proof.
  unfold rank.
  destruct (mapM _ items) as [keyed|] eqn:E; simpl; [|discriminate].
  intros [= <-]. apply mapM_ok in E.
  assert (Hk : map snd keyed = items /\
               Forall (fun kx => sort_key (snd kx) = Ok (fst kx)) keyed).
  { induction E as [|x kx items keyed Hx _ [IH1 IH2]]; simpl; [auto|].
    destruct (sort_key x) as [k|] eqn:Ek; simpl in Hx; [|discriminate].
    inversion Hx; subst kx; simpl. split; [congruence|]. constructor; auto. }
  destruct Hk as [Hsnd Hkeys]. split.
  - rewrite <- Hsnd. apply Permutation_map, sort_desc_perm.
  - assert (Hkeys' : Forall (fun kx => sort_key (snd kx) = Ok (fst kx)) (sort_desc keyed)).
    { rewrite Forall_forall in *. intros kx Hin. apply Hkeys.
      eapply Permutation_in; [apply sort_desc_perm|exact Hin]. }
    pose proof (sort_desc_sorted value keyed) as Hs.
    induction Hs as [|kx l Hl IH Hhd]; simpl; [constructor|].
    inversion Hkeys' as [|? ? Hx Hrest]; subst.
    constructor; [auto|].
    destruct Hhd as [|ky l Hxy]; simpl; constructor.
    inversion Hrest as [|? ? Hy _]; subst.
    destruct kx as [[sa pa] a], ky as [[sb pb] b]; simpl in *.
    apply sort_key_inv in Hx as [Hsa Hpa], Hy as [Hsb Hpb].
    apply key_gt_false in Hxy. simpl in Hxy.
    exists sa, sb, pa, pb. auto.
Qed.


(* ------------------------------------------------------------------ *)
(** ** The cache *)

Lemma cache_find_In c k e : cache_find c k = Some e -> In e c /\ ce_key e = k.
Proof.
  induction c as [|e' c IH]; simpl; [discriminate|].
  destruct (String.eqb_spec (ce_key e') k) as [Hk|Hk].
  - intros [= <-]. auto.
  - intros H. destruct (IH H). auto.
Qed.

Lemma cache_find_none c k :
  cache_find c k = None <-> Forall (fun e => ce_key e <> k) c.
Proof.
  induction c as [|e c IH]; simpl.
  - split; [constructor|reflexivity].
  - destruct (String.eqb_spec (ce_key e) k) as [Hk|Hk].
    + split; [discriminate|]. intros H. inversion H; contradiction.
    + rewrite IH. split; [now constructor|]. intros H. now inversion H.
Qed.

Lemma cache_remove_find c k : cache_find (cache_remove c k) k = None.
Proof.
  apply cache_find_none, Forall_forall. intros e Hin.
  apply filter_In in Hin as [_ H]. apply negb_true_iff in H.
  now apply String.eqb_neq.
Qed.

Lemma cache_find_last c k e :
  cache_find c k = None -> ce_key e = k -> cache_find (c ++ [e]) k = Some e.
Proof.
  intros Hc He. induction c as [|e' c IH]; simpl in *.
  - rewrite <- He. now rewrite String.eqb_refl.
  - destruct (String.eqb (ce_key e') k); [discriminate|auto].
Qed.

Lemma cache_find_skipn c k n :
  cache_find c k = None -> cache_find (skipn n c) k = None.
Proof.
  rewrite !cache_find_none, !Forall_forall. intros H e Hin. apply H.
  rewrite <- (firstn_skipn n c). apply in_or_app. now right.
Qed.

(** A stored result is found under its key, with [ttl] seconds to live. *)
Lemma cache_setitem_find now c k v :
  cache_find (cache_setitem now c k v) k
    = Some {| ce_key := k; ce_expires := (now + CACHE_TTL)%Q; ce_value := v |}.
Proof.
  unfold cache_setitem. apply cache_find_last; [|reflexivity].
  destruct (cache_find (cache_expire now c) k) eqn:E.
  - apply cache_remove_find.
  - now apply cache_find_skipn.
Qed.

Lemma cache_setitem_In now c k v e :
  In e (cache_setitem now c k v) ->
  In e c \/ e = {| ce_key := k; ce_expires := (now + CACHE_TTL)%Q; ce_value := v |}.
Proof.
  unfold cache_setitem. intros H. apply in_app_or in H as [H|[<-|[]]]; [left|now right].
  assert (Hlive : In e (cache_expire now c)).
  { destruct (cache_find (cache_expire now c) k).
    - now apply filter_In in H as [H _].
    - rewrite <- (firstn_skipn (List.length (cache_expire now c) + 1 - CACHE_MAXSIZE)).
      apply in_or_app. now right. }
  now apply filter_In in Hlive as [Hlive _].
Qed.

Lemma cache_getitem_In now c k e : In e (snd (cache_getitem now c k)) -> In e c.
Proof.
  unfold cache_getitem. destruct (cache_find c k) as [e'|] eqn:E; [|auto].
  apply cache_find_In in E as [E _].
  assert (H : In e (cache_remove c k ++ [e']) -> In e c).
  { intros H. apply in_app_or in H as [H|[<-|[]]]; [|exact E].
    now apply filter_In in H as [H _]. }
  destruct (Qltb now (ce_expires e')); exact H.
Qed.

Lemma cache_getitem_ok now c k r :
  fst (cache_getitem now c k) = Ok r ->
  exists e, cache_find c k = Some e /\ ce_value e = r /\
            Qltb now (ce_expires e) = true /\
            cache_find (snd (cache_getitem now c k)) k = Some e.
Proof.
  unfold cache_getitem. destruct (cache_find c k) as [e|] eqn:E; [|discriminate].
  destruct (Qltb now (ce_expires e)) eqn:El; simpl; [|discriminate].
  intros [= <-]. exists e. repeat split; auto.
  apply cache_find_last; [apply cache_remove_find|].
  now apply cache_find_In in E.
Qed.

Lemma cache_getitem_live now c k e :
  cache_find c k = Some e -> Qltb now (ce_expires e) = true ->
  fst (cache_getitem now c k) = Ok (ce_value e).
Proof. unfold cache_getitem. now intros -> ->. Qed.

(* ------------------------------------------------------------------ *)
(** ** The route *)

Section Route.

Variable tsr : string -> string -> Q.
Variable artists : list string.

(** Where a response comes from: the short-circuit, the cache, or a run
    that went to the network. *)
Lemma search_response w raw cache r :
  response (search tsr artists w raw cache) = Ok r ->
  r = [] \/
  (exists e, In e cache /\ ce_value e = r) \/
  fresh_result tsr artists w (normalize raw) r.
Proof.
  unfold search.
  destruct (String.length (normalize raw) <? 2)%nat; simpl.
  { intros [= <-]. now left. }
  destruct (cache_contains _ cache _).
  { destruct (cache_getitem _ cache _) as [r' c'] eqn:E; simpl. intros ->.
    right; left.
    destruct (cache_getitem_ok (t_read (w_clock w)) cache (normalize raw) r)
      as (e & He & Hv & _); [now rewrite E|].
    exists e. split; [|exact Hv]. now apply cache_find_In in He. }
  destruct (collect tsr _ _) as [st|] eqn:Ec; simpl; [|discriminate].
  destruct (rank (results st)) as [ranked|] eqn:Er; simpl; [|discriminate].
  intros [= <-]. right; right. exists st, ranked. auto.
Qed.

(** Whatever a request leaves in the cache was there before or is the
    result it computed. *)
Lemma search_cache_after w raw cache e :
  In e (cache_after (search tsr artists w raw cache)) ->
  In e cache \/ fresh_result tsr artists w (normalize raw) (ce_value e).
Proof.
  unfold search.
  destruct (String.length (normalize raw) <? 2)%nat; simpl; [auto|].
  destruct (cache_contains _ cache _).
  { pose proof (cache_getitem_In (t_read (w_clock w)) cache (normalize raw) e) as H.
    destruct (cache_getitem _ cache _) as [r' c']; simpl in *. auto. }
  destruct (collect tsr _ _) as [st|] eqn:Ec; simpl; [|auto].
  destruct (rank (results st)) as [ranked|] eqn:Er; simpl; [|auto].
  intros H. apply cache_setitem_In in H as [H| ->]; [auto|].
  right. exists st, ranked. auto.
Qed.

Section Invariant.

(** A property of result lists that holds of the empty list and of
    everything a run computes holds of every cached result and of every
    response. *)
Variable P : list value -> Prop.
Hypothesis P_empty : P [].
Hypothesis P_fresh : forall w q r, fresh_result tsr artists w q r -> P r.

Lemma reachable_cache cache :
  reachable tsr artists cache -> forall e, In e cache -> P (ce_value e).
Proof.
  induction 1 as [|w raw cache _ IH]; intros e Hin; [contradiction|].
  apply search_cache_after in Hin as [Hin|Hin]; eauto.
Qed.

Lemma reachable_response cache w raw r :
  reachable tsr artists cache ->
  response (search tsr artists w raw cache) = Ok r -> P r.
Proof.
  intros Hc Hr. apply search_response in Hr as [->|[(e & Hin & <-)|Hr]]; eauto.
  eapply reachable_cache; eauto.
Qed.

End Invariant.

End Route.

(* ------------------------------------------------------------------ *)
(** ** What a run computes *)

Lemma In_firstn {A : Type} (n : nat) (l : list A) (x : A) : In x (firstn n l) -> In x l.
Proof.
  intros H. rewrite <- (firstn_skipn n l). apply in_or_app. now left.
Qed.

Lemma NoDup_firstn {A : Type} (n : nat) (l : list A) : NoDup l -> NoDup (firstn n l).
Proof.
  intros H. rewrite <- (firstn_skipn n l) in H. now apply NoDup_app_remove_r in H.
Qed.

(** The result of a run: a prefix of a sorted rearrangement of what the
    gathering loop kept. *)
Lemma fresh_result_inv tsr artists w q r :
  fresh_result tsr artists w q r ->
  exists st ranked,
    collect_inv tsr q st (fetched tsr artists w q) /\
    Permutation ranked (results st) /\
    Sorted ordered ranked /\
    r = firstn 150 ranked.
Proof.
  intros (st & ranked & Hc & Hr & ->).
  apply collect_invariant in Hc. apply rank_spec in Hr as [Hp Hs].
  exists st, ranked. auto.
Qed.

Lemma fresh_result_kept tsr artists w q r x :
  fresh_result tsr artists w q r -> In x r ->
  exists st, collect_inv tsr q st (fetched tsr artists w q) /\ In x (results st).
Proof.
  intros H Hin. apply fresh_result_inv in H as (st & ranked & Hinv & Hp & _ & ->).
  exists st. split; [exact Hinv|].
  eapply Permutation_in; [exact Hp|]. eapply In_firstn; eauto.
Qed.

Lemma above_floor_score (t : value) :
  above_floor t = Ok true -> exists s, score_of t = Some s /\ (45 < s)%Q.
Proof.
  unfold above_floor, score_of, py_getitem, py_get.
  destruct t as [| | | | | |d]; simpl; try discriminate.
  destruct (dict_get d "_score") as [v|]; simpl; [|discriminate].
  unfold py_gt. destruct (num_of v) as [s|]; simpl; [|discriminate].
  intros [= H]. exists s. split; [reflexivity|]. now apply Qltb_lt in H.
Qed.

Lemma artist_matches_above_floor tsr q data :
  forall matches r,
  Forall (fun t => above_floor t = Ok true) matches ->
  artist_matches tsr q data matches = Ok r ->
  Forall (fun t => above_floor t = Ok true) r.
Proof.
  induction data as [|t data IH]; simpl; intros matches r Hm.
  - now intros [= <-].
  - destruct (is_dict t) eqn:Ed; [|now apply IH].
    destruct (calculate_score tsr q t) as [score|]; simpl; [|discriminate].
    destruct (py_gt score (VInt 45)) as [[]|] eqn:Eg; simpl; [| |discriminate].
    + apply IH. apply Forall_app. split; [exact Hm|].
      constructor; [|constructor].
      destruct t; try discriminate. unfold above_floor. simpl.
      now rewrite dict_get_set_same.
    + now apply IH.
Qed.

(** Every collected item has a number for a score, so the ranking never
    compares anything but numbers. *)
Lemma collect_scores_numeric tsr q items st :
  foldM (collect_track tsr q) {| results := []; seen_ids := [] |} items = Ok st ->
  Forall (fun r => exists s, score_of r = Some s) (results st).
Proof.
  intros H. apply collect_invariant in H. destruct H as (_ & Hres & _).
  eapply Forall_impl; [|exact Hres]. simpl.
  intros r (_ & _ & Ha & _). apply above_floor_score in Ha as (s & Hs & _). eauto.
Qed.

Lemma take_nth_perm {A : Type} (i : nat) (l rest : list A) (x : A) :
  take_nth i l = Some (x, rest) -> Permutation (x :: rest) l.
Proof.
  revert i rest; induction l as [|y l IH]; intros [|i] rest; simpl;
    try discriminate.
  - now intros [= <- <-].
  - destruct (take_nth i l) as [[z r]|] eqn:E; [|discriminate].
    intros [= <- <-]. rewrite perm_swap. constructor. now apply (IH i).
Qed.

(** Whatever the completion order, every future is met exactly once. *)
Lemma as_completed_perm {A : Type} (order : list nat) (pending : list A) :
  Permutation (as_completed order pending) pending.
Proof.
  revert pending; induction order as [|i order IH]; intros pending; simpl.
  - reflexivity.
  - destruct (take_nth i pending) as [[x rest]|] eqn:E; [|apply IH].
    rewrite (IH rest). now apply take_nth_perm with (i := i).
Qed.

(** A run submits 3 broad fetches and 20 entity fetches. *)
Lemma submit_all_length (artists : list string) (q : string) :
  (20 <= List.length artists)%nat -> List.length (submit_all artists q) = 23%nat.
Proof.
  intros H. unfold submit_all.
  rewrite length_app, !length_map, length_firstn, Nat.min_l by exact H.
  reflexivity.
Qed.

(** C6: no item scoring 45 or less gets through.  Every item the entity
    fetch returns, and every item of every response the route gives, carries
    a score above 45. *)
Theorem no_result_at_or_below_floor
    (tsr : string -> string -> Q) (artists : list string) :
  (forall net artist q,
     Forall (fun t => exists s, score_of t = Some s /\ (45 < s)%Q)
            (fetch_artist tsr net artist q)) /\
  (forall cache w raw r,
     reachable tsr artists cache ->
     response (search tsr artists w raw cache) = Ok r ->
     Forall (fun t => exists s, score_of t = Some s /\ (45 < s)%Q) r).
Proof.
  split.
  - intros net artist q. eapply Forall_impl; [intros t; apply above_floor_score|].
    unfold fetch_artist, fetch_artist_try.
    destruct (requests_get net (ArtistTracks artist)) as [[status body]|];
      simpl; [|constructor].
    destruct (r_json body) as [data|]; simpl; [|constructor].
    destruct data; simpl; try constructor.
    destruct (artist_matches tsr q l []) as [r|] eqn:E; simpl; [|constructor].
    eapply artist_matches_above_floor; [|exact E]. constructor.
  - intros cache w raw r Hc Hr.
    apply (reachable_response tsr artists
             (Forall (fun t => exists s, score_of t = Some s /\ (45 < s)%Q)))
      with (cache := cache) (w := w) (raw := raw); auto.
    intros w' q' r' Hf. apply Forall_forall. intros x Hin.
    destruct (fresh_result_kept _ _ _ _ _ _ Hf Hin) as (st & Hinv & Hx).
    destruct Hinv as (_ & Hres & _). rewrite Forall_forall in Hres.
    apply above_floor_score. now apply Hres.
Qed.


Lemma no_result_at_or_below_floor_witness :
  response (search (flat_ratio 0) KNOWN_ARTISTS
              (served (first_page_only [zzz_track; wakhra_track]) 0) (Some "swag") [])
    = Ok [scored wakhra_track 100] /\
  Forall (fun t => exists s, score_of t = Some s /\ (45 < s)%Q)
         [scored wakhra_track 100].
Proof.
  split; [reflexivity|].
  apply (proj2 (no_result_at_or_below_floor (flat_ratio 0) KNOWN_ARTISTS)
           [] (served (first_page_only [zzz_track; wakhra_track]) 0) (Some "swag")
           [scored wakhra_track 100] (reach_start _ _)).
  reflexivity.
Defined.


(* ------------------------------------------------------------------ *)
(** ** Deduplication *)

(** A request that finds nothing in the cache computes its response, stores
    it, and has submitted every fetch. *)
Lemma search_miss tsr artists w raw cache r :
  (2 <= String.length (normalize raw))%nat ->
  cache_contains (t_check (w_clock w)) cache (normalize raw) = false ->
  response (search tsr artists w raw cache) = Ok r ->
  fresh_result tsr artists w (normalize raw) r /\
  cache_after (search tsr artists w raw cache)
    = cache_setitem (t_store (w_clock w)) cache (normalize raw) r /\
  dispatched (search tsr artists w raw cache) = submit_all artists (normalize raw).
Proof.
  intros Hlen Hmiss. unfold search.
  apply Nat.ltb_ge in Hlen. rewrite Hlen, Hmiss.
  destruct (collect tsr _ _) as [st|] eqn:Ec; simpl; [|discriminate].
  destruct (rank (results st)) as [ranked|] eqn:Er; simpl; [|discriminate].
  intros [= <-]. repeat split. exists st, ranked. auto.
Qed.

(** C4, as amended: a response holds at most one entry per identity, and
    every entry has an identity; in a run that goes to the network each
    entry is the first item, in completion order, of its identity to score
    above 45, so that no later item of that identity is kept whatever its
    score. *)
Theorem one_entry_per_identity
    (tsr : string -> string -> Q) (artists : list string)
    (cache : ttl_cache) (w : world) (raw : option string) (r : list value) :
  reachable tsr artists cache ->
  response (search tsr artists w raw cache) = Ok r ->
  (forall i j a b, i <> j -> nth_error r i = Some a -> nth_error r j = Some b ->
                   py_eq (track_id a) (track_id b) = false) /\
  (forall a, In a r -> truthy (track_id a) = true) /\
  ((2 <= String.length (normalize raw))%nat ->
   cache_contains (t_check (w_clock w)) cache (normalize raw) = false ->
   forall a, In a r ->
     exists pre t post,
       fetched tsr artists w (normalize raw) = pre ++ t :: post /\
       kept_as tsr (normalize raw) t a /\
       forall u u', In u pre -> py_eq (track_id u) (track_id t) = true ->
                    ~ kept_as tsr (normalize raw) u u').
Proof.
  intros Hc Hr.
  assert (H : NoDup (map (fun x => ident_of (track_id x)) r) /\
              Forall (fun x => truthy (track_id x) = true /\
                               hashable (track_id x) = true) r).
  { apply (reachable_response tsr artists
             (fun r => NoDup (map (fun x => ident_of (track_id x)) r) /\
                       Forall (fun x => truthy (track_id x) = true /\
                                        hashable (track_id x) = true) r))
      with (cache := cache) (w := w) (raw := raw); auto.
    - split; constructor.
    - intros w' q' r' Hf. split.
      + apply fresh_result_inv in Hf as (st & ranked & Hinv & Hp & _ & ->).
        rewrite <- firstn_map. apply NoDup_firstn.
        destruct Hinv as (_ & _ & Hnd & _).
        eapply Permutation_NoDup; [|exact Hnd].
        symmetry. now apply Permutation_map.
      + apply Forall_forall. intros x Hin.
        destruct (fresh_result_kept _ _ _ _ _ _ Hf Hin) as (st & Hinv & Hx).
        destruct Hinv as (_ & Hres & _). rewrite Forall_forall in Hres.
        destruct (Hres x Hx) as (H1 & H2 & _). auto. }
  destruct H as [Hnd Hid]. rewrite Forall_forall in Hid.
  split; [|split].
  - intros i j a b Hij Ha Hb.
    destruct (py_eq (track_id a) (track_id b)) eqn:E; [|reflexivity].
    exfalso. apply Hij.
    assert (Hina : In a r) by (eapply nth_error_In; eauto).
    assert (Hinb : In b r) by (eapply nth_error_In; eauto).
    apply py_eq_ident in E; [|apply Hid; auto|apply Hid; auto].
    rewrite NoDup_nth_error in Hnd. apply Hnd.
    + rewrite length_map. apply nth_error_Some. congruence.
    + rewrite !nth_error_map, Ha, Hb. simpl. congruence.
  - intros a Ha. now apply Hid.
  - intros Hlen Hmiss a Ha.
    destruct (search_miss _ _ _ _ _ _ Hlen Hmiss Hr) as (Hf & _).
    destruct (fresh_result_kept _ _ _ _ _ _ Hf Ha) as (st & Hinv & Hx).
    destruct Hinv as (_ & _ & _ & _ & Hfirst). now apply Hfirst.
Qed.

Lemma one_entry_per_identity_witness :
  response (search (flat_ratio 0) KNOWN_ARTISTS
              (served (first_page_only [swag_mashup; swag_again]) 0) (Some "swag") [])
    = Ok [scored swag_mashup 100] /\
  (forall a, In a [scored swag_mashup 100] -> truthy (track_id a) = true).
Proof.
  split; [reflexivity|].
  apply (one_entry_per_identity (flat_ratio 0) KNOWN_ARTISTS []
           (served (first_page_only [swag_mashup; swag_again]) 0) (Some "swag")
           [scored swag_mashup 100] (reach_start _ _)).
  reflexivity.
Defined.

(** C4, as stated, fails twice over.  Of two fetched items with the identity
    7 the first scores below the floor and the second above it: the response
    holds the second, although it came later.  And when both score below
    the floor the response holds no entry for the identity at all.  (The
    stand-in ratio 0 is what the token-set ratio of "swag" and "zzz" is.) *)
Lemma later_duplicate_wins :
  track_id zzz_track = VInt 7 /\ track_id swag_mashup = VInt 7 /\
  response (search (flat_ratio 0) KNOWN_ARTISTS
              (served (first_page_only [zzz_track; swag_mashup]) 0) (Some "swag") [])
    = Ok [scored swag_mashup 100] /\
  response (search (flat_ratio 0) KNOWN_ARTISTS
              (served (first_page_only [zzz_track; zzz_track]) 0) (Some "swag") [])
    = Ok [].
Proof. repeat split. Qed.

(* ------------------------------------------------------------------ *)
(** ** Serving from the cache *)

(** A normalized query shorter than two characters goes no further. *)
Lemma search_too_short tsr artists w raw cache :
  (String.length (normalize raw) < 2)%nat ->
  search tsr artists w raw cache
    = {| response := Ok []; cache_after := cache; dispatched := [] |}.
Proof.
  intros Hlen. unfold search. now apply Nat.ltb_lt in Hlen as ->.
Qed.

(** C8: a repeated search is served from the cache.  When a first search
    returns, its result sits in the cache under the normalized query (for
    [CACHE_TTL] = 1800 seconds from the store, if this run computed it); and
    a second search for the same normalized query, made while that entry is
    still in the cache and has not expired, returns the same result and
    submits no fetch.  A query too short to be searched is answered the
    same way both times. *)
Theorem repeated_search_served_from_cache
    (tsr : string -> string -> Q) (artists : list string)
    (w1 w2 : world) (raw1 raw2 : option string) (cache : ttl_cache)
    (r1 : list value) :
  normalize raw2 = normalize raw1 ->
  response (search tsr artists w1 raw1 cache) = Ok r1 ->
  ((2 <= String.length (normalize raw1))%nat ->
   exists e,
     cache_find (cache_after (search tsr artists w1 raw1 cache)) (normalize raw1) = Some e /\
     ce_value e = r1 /\
     (cache_contains (t_check (w_clock w1)) cache (normalize raw1) = false ->
      ce_expires e = (t_store (w_clock w1) + CACHE_TTL)%Q)) /\
  (forall cache2,
     (String.length (normalize raw1) < 2)%nat \/
     (exists e,
        cache_find (cache_after (search tsr artists w1 raw1 cache)) (normalize raw1) = Some e /\
        cache_find cache2 (normalize raw1) = Some e /\
        (t_check (w_clock w2) < ce_expires e)%Q /\
        (t_read (w_clock w2) < ce_expires e)%Q) ->
     response (search tsr artists w2 raw2 cache2) = Ok r1 /\
     dispatched (search tsr artists w2 raw2 cache2) = []).
Proof.
  intros Hq Hr.
  assert (Hentry : (2 <= String.length (normalize raw1))%nat ->
    exists e,
      cache_find (cache_after (search tsr artists w1 raw1 cache)) (normalize raw1) = Some e /\
      ce_value e = r1 /\
      (cache_contains (t_check (w_clock w1)) cache (normalize raw1) = false ->
       ce_expires e = (t_store (w_clock w1) + CACHE_TTL)%Q)).
  { intros Hlen.
    destruct (cache_contains (t_check (w_clock w1)) cache (normalize raw1)) eqn:Ehit.
    - revert Hr. unfold search. apply Nat.ltb_ge in Hlen. rewrite Hlen, Ehit.
      pose proof (cache_getitem_ok (t_read (w_clock w1)) cache (normalize raw1) r1) as H.
      destruct (cache_getitem _ cache _) as [r' c']; simpl in *. intros ->.
      destruct (H eq_refl) as (e & _ & Hv & _ & Hf).
      exists e. repeat split; auto. discriminate.
    - destruct (search_miss _ _ _ _ _ _ Hlen Ehit Hr) as (_ & -> & _).
      eexists. split; [apply cache_setitem_find|]. split; reflexivity. }
  split; [exact Hentry|].
  intros cache2 [Hshort|(e & He1 & He2 & Hc & Hd)].
  - rewrite (search_too_short tsr artists w2 raw2 cache2) by now rewrite Hq.
    rewrite (search_too_short tsr artists w1 raw1 cache) in Hr by exact Hshort.
    simpl in *. auto.
  - destruct (Nat.ltb_spec (String.length (normalize raw1)) 2) as [Hlt|Hge].
    { rewrite (search_too_short tsr artists w2 raw2 cache2) by now rewrite Hq.
      rewrite (search_too_short tsr artists w1 raw1 cache) in Hr by exact Hlt.
      simpl in *. auto. }
    destruct (Hentry Hge) as (e' & He' & Hv & _).
    assert (e' = e) by congruence. subst e'.
    apply Qltb_lt in Hc, Hd.
    unfold search. rewrite Hq. apply Nat.ltb_ge in Hge. rewrite Hge.
    unfold cache_contains. rewrite He2, Hc.
    pose proof (cache_getitem_live (t_read (w_clock w2)) cache2 _ e He2 Hd) as Hg.
    destruct (cache_getitem _ cache2 _) as [r' c']; simpl in *.
    rewrite Hg, Hv. auto.
Qed.

Lemma repeated_search_served_from_cache_witness :
  response (search (flat_ratio 0) KNOWN_ARTISTS (served offline (1799 # 1)) (Some " SWAG ")
              (cache_after (search (flat_ratio 0) KNOWN_ARTISTS
                              (served (first_page_only [wakhra_track]) 0)
                              (Some "swag") [])))
    = Ok [scored wakhra_track 100] /\
  dispatched (search (flat_ratio 0) KNOWN_ARTISTS (served offline (1799 # 1)) (Some " SWAG ")
                (cache_after (search (flat_ratio 0) KNOWN_ARTISTS
                                (served (first_page_only [wakhra_track]) 0)
                                (Some "swag") [])))
    = [].
Proof.
  apply (proj2 (repeated_search_served_from_cache (flat_ratio 0) KNOWN_ARTISTS
                  (served (first_page_only [wakhra_track]) 0) (served offline (1799 # 1))
                  (Some "swag") (Some " SWAG ") [] [scored wakhra_track 100]
                  eq_refl eq_refl)).
  right. eexists. split; [reflexivity|]. split; [reflexivity|]. split; reflexivity.
Defined.

(* ------------------------------------------------------------------ *)
(** ** Errors *)









(* ------------------------------------------------------------------ *)
(** ** More on the fetchers *)

Lemma fetch_global_fail_soft_witness :
  fetch_global (answering 503 [wakhra_track]) "swag" 1 = [].
Proof.
  apply fetch_global_fail_soft. right.
  exists 503, (Some (VList [wakhra_track])). split; [reflexivity|].
  left. discriminate.
Defined.

Lemma fetch_artist_fail_soft_witness :
  fetch_artist (flat_ratio 0) offline "djnyk" "swag" = [].
Proof.
  apply fetch_artist_fail_soft. left. reflexivity.
Defined.

Lemma py_gt_numeric (score : value) (x : Q) :
  num_of score = Some x -> py_gt score (VInt 45) = Ok (Qltb (inject_Z 45) x).
Proof. unfold py_gt. now intros ->. Qed.

Lemma artist_matches_raises tsr q data t :
  In t data -> is_dict t = true -> scorable t = false ->
  forall matches, exists e, artist_matches tsr q data matches = Raise e.
Proof.
  intros Hin Hd Hs. induction data as [|t0 data IH]; [contradiction|].
  intros matches. simpl.
  destruct Hin as [->|Hin].
  - rewrite Hd. destruct (calculate_score tsr q t) as [v|e] eqn:E; simpl; [|eauto].
    assert (scorable t = true) by (apply (calculate_score_total tsr q); eauto).
    congruence.
  - destruct (is_dict t0); [|now apply IH].
    destruct (calculate_score tsr q t0) as [v|e] eqn:E; simpl; [|eauto].
    destruct (calculate_score_numeric _ _ _ _ E) as [x Hx].
    rewrite (py_gt_numeric _ _ Hx). simpl.
    destruct (Qltb (inject_Z 45) x); now apply IH.
Qed.

(** X3: one unreadable record voids the whole answer of the entity fetch.
    When the array holds a record the scorer cannot read (a title or owner
    name that is not a string), [fetch_artist] returns the empty list,
    whatever matches the array also holds. *)
Theorem fetch_artist_unreadable_record_voids_all
    (tsr : string -> string -> Q) (net : network) (artist q : string)
    (status : Z) (data : list value) (t : value) :
  net (ArtistTracks artist) = Response status (Some (VList data)) ->
  In t data -> is_dict t = true -> scorable t = false ->
  fetch_artist tsr net artist q = [].
Proof.
  intros Hnet Hin Hd Hs. unfold fetch_artist, fetch_artist_try, requests_get.
  rewrite Hnet. cbn [bind snd r_json].
  destruct (artist_matches_raises tsr q data t Hin Hd Hs []) as [e ->].
  reflexivity.
Qed.

Lemma fetch_artist_unreadable_record_voids_all_witness :
  fetch_artist (flat_ratio 0) (answering 200 [wakhra_track; untitled_track])
               "djnyk" "swag" = [] /\
  fetch_artist (flat_ratio 0) (answering 200 [wakhra_track]) "djnyk" "swag"
    = [scored wakhra_track 100].
Proof.
  split; [|reflexivity].
  apply (fetch_artist_unreadable_record_voids_all (flat_ratio 0)
           (answering 200 [wakhra_track; untitled_track]) "djnyk" "swag"
           200 [wakhra_track; untitled_track] untitled_track eq_refl).
  - right. now left.
  - reflexivity.
  - reflexivity.
Defined.

Lemma artist_matches_spec tsr q data :
  Forall (fun t => is_dict t = true -> scorable t = true) data ->
  forall matches, exists out,
    artist_matches tsr q data matches = Ok (matches ++ out) /\
    forall r, In r out <->
      exists t score,
        In t data /\ is_dict t = true /\
        calculate_score tsr q t = Ok score /\
        py_gt score (VInt 45) = Ok true /\
        r = py_setitem t "_score" score.
Proof.
  induction 1 as [|t data Ht _ IH]; intros matches; simpl.
  - exists []. rewrite app_nil_r. split; [reflexivity|].
    split; [contradiction|]. now intros (t & s & [] & _).
  - destruct (is_dict t) eqn:Ed.
    + destruct (proj1 (calculate_score_total tsr q t) (Ht eq_refl)) as [v Hv].
      rewrite Hv. cbn [bind].
      destruct (calculate_score_numeric _ _ _ _ Hv) as [x Hx].
      rewrite (py_gt_numeric _ _ Hx). cbn [bind].
      destruct (Qltb (inject_Z 45) x) eqn:Eg.
      * destruct (IH (matches ++ [py_setitem t "_score" v])) as (out & -> & Hout).
        exists (py_setitem t "_score" v :: out). rewrite <- app_assoc.
        split; [reflexivity|]. intros r. simpl. rewrite Hout. split.
        -- intros [<-|(t' & s & Hin & H)].
           ++ exists t, v. rewrite (py_gt_numeric _ _ Hx), Eg. auto.
           ++ exists t', s. tauto.
        -- intros (t' & s & [<-|Hin] & Hd' & Hs' & Hg' & ->).
           ++ left. congruence.
           ++ right. exists t', s. auto.
      * destruct (IH matches) as (out & -> & Hout).
        exists out. split; [reflexivity|]. intros r. rewrite Hout. split.
        -- intros (t' & s & Hin & H). exists t', s. simpl. tauto.
        -- intros (t' & s & [<-|Hin] & Hd' & Hs' & Hg' & ->).
           ++ rewrite Hv in Hs'. inversion Hs'; subst s.
              rewrite (py_gt_numeric _ _ Hx), Eg in Hg'. discriminate.
           ++ exists t', s. auto.
    + destruct (IH matches) as (out & -> & Hout).
      exists out. split; [reflexivity|]. intros r. rewrite Hout. split.
      * intros (t' & s & Hin & H). exists t', s. simpl. tauto.
      * intros (t' & s & [<-|Hin] & Hd' & H); [congruence|].
        exists t', s. auto.
Qed.

(** X4: what the entity fetch returns.  When every record of the array can
    be read by the scorer, the fetch returns exactly the records whose score
    for the query exceeds 45, each with that score stored under ["_score"]
    (a score the remote service sent is overwritten); whatever in the array
    is no record is passed over. *)
Theorem fetch_artist_returns_scored_records
    (tsr : string -> string -> Q) (net : network) (artist q : string)
    (status : Z) (data : list value) :
  net (ArtistTracks artist) = Response status (Some (VList data)) ->
  Forall (fun t => is_dict t = true -> scorable t = true) data ->
  forall r,
    In r (fetch_artist tsr net artist q) <->
    exists t score,
      In t data /\ is_dict t = true /\
      calculate_score tsr q t = Ok score /\
      py_gt score (VInt 45) = Ok true /\
      r = py_setitem t "_score" score.
Proof.
  intros Hnet Hdata r. unfold fetch_artist, fetch_artist_try, requests_get.
  rewrite Hnet. cbn [bind snd r_json].
  destruct (artist_matches_spec tsr q data Hdata []) as (out & -> & Hout).
  simpl. apply Hout.
Qed.

Lemma fetch_artist_returns_scored_records_witness :
  In (scored wakhra_track 100)
     (fetch_artist (flat_ratio 0) (answering 200 [VStr "junk"; zzz_track; wakhra_track])
                   "djnyk" "swag").
Proof.
  apply (fetch_artist_returns_scored_records (flat_ratio 0)
           (answering 200 [VStr "junk"; zzz_track; wakhra_track]) "djnyk" "swag"
           200 [VStr "junk"; zzz_track; wakhra_track] eq_refl).
  - repeat constructor; discriminate.
  - exists wakhra_track, (VInt 100). repeat split. simpl. auto.
Defined.

(* ------------------------------------------------------------------ *)
(** ** Scores, once attached *)

Lemma above_floor_has_score (t : value) (b : bool) :
  above_floor t = Ok b -> is_dict t = true /\ has_key "_score" t = true.
Proof.
  unfold above_floor, py_getitem, has_key.
  destruct t as [| | | | | |d]; simpl; try discriminate.
  destruct (dict_get d "_score"); simpl; [auto|discriminate].
Qed.

Lemma fetch_artist_above_floor tsr net artist q :
  Forall (fun t => above_floor t = Ok true) (fetch_artist tsr net artist q).
Proof.
  unfold fetch_artist, fetch_artist_try.
  destruct (requests_get net (ArtistTracks artist)) as [[status body]|];
    simpl; [|constructor].
  destruct (r_json body) as [data|]; simpl; [|constructor].
  destruct data; simpl; try constructor.
  destruct (artist_matches tsr q l []) as [r|] eqn:E; simpl; [|constructor].
  eapply artist_matches_above_floor; [|exact E]. constructor.
Qed.

(** X5: the gathering loop takes an item of the entity fetch as it is.  The
    item is not scored again and cannot fail the floor: provided it has an
    identity not met before, it is appended unchanged and its identity is
    recorded. *)
Theorem entity_item_taken_as_it_is
    (tsr : string -> string -> Q) (net : network) (artist q q' : string)
    (st : collected) (t : value) :
  In t (fetch_artist tsr net artist q) ->
  truthy (track_id t) = true ->
  hashable (track_id t) = true ->
  existsb (py_eq (track_id t)) (seen_ids st) = false ->
  collect_track tsr q' st t
    = Ok {| results := results st ++ [t];
            seen_ids := set_add (track_id t) (seen_ids st) |}.
Proof.
  intros Hin Ht Hh Hs.
  pose proof (fetch_artist_above_floor tsr net artist q) as Hall.
  rewrite Forall_forall in Hall. specialize (Hall t Hin).
  destruct (above_floor_has_score t true Hall) as [Hd Hk].
  destruct t as [| | | | | |d]; try discriminate.
  unfold collect_track, unseen, set_contains, ensure_score.
  unfold track_id in *. simpl py_get in *. simpl try_except in *. cbn [bind].
  rewrite Ht, Hh. cbn [bind]. rewrite Hs. cbn [bind negb].
  rewrite Hk. cbn [negb bind]. rewrite Hall. reflexivity.
Qed.

Lemma entity_item_taken_as_it_is_witness :
  collect_track (flat_ratio 0) "another query" {| results := []; seen_ids := [] |}
                (scored wakhra_track 100)
    = Ok {| results := [scored wakhra_track 100]; seen_ids := [VInt 42] |}.
Proof.
  apply (entity_item_taken_as_it_is (flat_ratio 0) (answering 200 [wakhra_track])
           "djnyk" "swag" "another query" {| results := []; seen_ids := [] |}
           (scored wakhra_track 100)); try reflexivity.
  now left.
Defined.

(** X15: a score is attached once.  What [ensure_score] returns already
    carries a score, so passing it through [ensure_score] again, for any
    query, gives it back unchanged. *)
Theorem ensure_score_idempotent
    (tsr : string -> string -> Q) (q q' : string) (t t' : value) :
  ensure_score tsr q t = Ok t' -> ensure_score tsr q' t' = Ok t'.
Proof.
  unfold ensure_score. destruct (has_key "_score" t) eqn:Ek; simpl negb; cbv iota.
  - intros [= <-]. now rewrite Ek.
  - destruct (calculate_score tsr q t) as [v|] eqn:E; cbn [bind]; [|discriminate].
    intros [= <-]. destruct (calculate_score_dict _ _ _ _ E) as [d ->].
    simpl. now rewrite dict_get_set_same.
Qed.

Lemma ensure_score_idempotent_witness :
  ensure_score (flat_ratio 0) "swag" wakhra_track = Ok (scored wakhra_track 100) /\
  ensure_score (flat_ratio 0) "zzz" (scored wakhra_track 100)
    = Ok (scored wakhra_track 100).
Proof.
  split; [reflexivity|].
  apply (ensure_score_idempotent (flat_ratio 0) "swag" "zzz" wakhra_track).
  reflexivity.
Defined.

(** X14: the scorer reads the title, the owner and the download URL, and
    nothing else.  Setting any other field of a record (its identity, its
    popularity counter, its score) leaves the result of [calculate_score]
    as it was. *)
Theorem calculate_score_reads_three_fields
    (tsr : string -> string -> Q) (q : string)
    (d : list (string * value)) (k : string) (v : value) :
  k <> "title" -> k <> "user" -> k <> "download_url" ->
  calculate_score tsr q (py_setitem (VDict d) k v) = calculate_score tsr q (VDict d).
Proof.
  intros H1 H2 H3. unfold calculate_score. simpl.
  now rewrite !dict_get_set_other by assumption.
Qed.

Lemma calculate_score_reads_three_fields_witness :
  calculate_score (flat_ratio 60) "tere bina" (scored wakhra_track 7)
    = calculate_score (flat_ratio 60) "tere bina" wakhra_track.
Proof.
  apply (calculate_score_reads_three_fields (flat_ratio 60) "tere bina");
    discriminate.
Defined.

(* ------------------------------------------------------------------ *)
(** ** Going to the network *)

Lemma cache_contains_stale now cache k :
  (forall e, cache_find cache k = Some e -> (ce_expires e <= now)%Q) ->
  cache_contains now cache k = false.
Proof.
  intros H. unfold cache_contains.
  destruct (cache_find cache k) as [e|]; [|reflexivity].
  apply Qltb_ge. now apply H.
Qed.

Lemma search_miss_dispatched tsr artists w raw cache :
  (2 <= String.length (normalize raw))%nat ->
  cache_contains (t_check (w_clock w)) cache (normalize raw) = false ->
  dispatched (search tsr artists w raw cache) = submit_all artists (normalize raw).
Proof.
  intros Hlen Hmiss. unfold search. apply Nat.ltb_ge in Hlen. rewrite Hlen, Hmiss.
  destruct (collect tsr _ _) as [st|]; simpl; [|reflexivity].
  destruct (rank (results st)); reflexivity.
Qed.

(** X6: a stale entry does not answer.  When the cache holds no entry for
    the normalized query, or one that has expired by the time the route
    looks, the request submits every fetch again; and if it returns, the
    result it computed replaces the old entry, good for another
    [CACHE_TTL] seconds. *)
Theorem stale_entry_is_refetched
    (tsr : string -> string -> Q) (artists : list string) (w : world)
    (raw : option string) (cache : ttl_cache) :
  (2 <= String.length (normalize raw))%nat ->
  (forall e, cache_find cache (normalize raw) = Some e ->
             (ce_expires e <= t_check (w_clock w))%Q) ->
  dispatched (search tsr artists w raw cache) = submit_all artists (normalize raw) /\
  forall r, response (search tsr artists w raw cache) = Ok r ->
    cache_find (cache_after (search tsr artists w raw cache)) (normalize raw)
      = Some {| ce_key := normalize raw;
                ce_expires := (t_store (w_clock w) + CACHE_TTL)%Q;
                ce_value := r |}.
Proof.
  intros Hlen Hstale. apply cache_contains_stale in Hstale.
  split; [now apply search_miss_dispatched|].
  intros r Hr. destruct (search_miss _ _ _ _ _ _ Hlen Hstale Hr) as (_ & -> & _).
  apply cache_setitem_find.
Qed.

Lemma stale_entry_is_refetched_witness :
  dispatched (search (flat_ratio 0) KNOWN_ARTISTS (served offline (1800 # 1)) (Some "swag")
                (cache_after (search (flat_ratio 0) KNOWN_ARTISTS
                                (served (first_page_only [wakhra_track]) 0)
                                (Some "swag") [])))
    = submit_all KNOWN_ARTISTS "swag".
Proof.
  apply (proj1 (stale_entry_is_refetched (flat_ratio 0) KNOWN_ARTISTS
                  (served offline (1800 # 1)) (Some "swag")
                  (cache_after (search (flat_ratio 0) KNOWN_ARTISTS
                                  (served (first_page_only [wakhra_track]) 0)
                                  (Some "swag") []))
                  ltac:(simpl; lia)
                  ltac:(intros e [= <-]; apply Qle_bool_iff; reflexivity))).
Defined.

Lemma concat_all_nil {A : Type} (ls : list (list A)) :
  Forall (fun l => l = []) ls -> List.concat ls = [].
Proof. induction 1 as [|l ls -> _ IH]; simpl; auto. Qed.

(** X7: an outage is answered with the empty list, and remembered.  When
    every fetch of a run comes back empty, as it does when every call
    fails, the route returns the empty list without raising and stores it
    under the query for [CACHE_TTL] seconds. *)
Theorem total_failure_is_cached
    (tsr : string -> string -> Q) (artists : list string) (w : world)
    (raw : option string) (cache : ttl_cache) :
  (2 <= String.length (normalize raw))%nat ->
  cache_contains (t_check (w_clock w)) cache (normalize raw) = false ->
  (forall t, In t (submit_all artists (normalize raw)) ->
             run_task tsr (w_net w) t = []) ->
  response (search tsr artists w raw cache) = Ok [] /\
  cache_find (cache_after (search tsr artists w raw cache)) (normalize raw)
    = Some {| ce_key := normalize raw;
              ce_expires := (t_store (w_clock w) + CACHE_TTL)%Q;
              ce_value := [] |}.
Proof.
  intros Hlen Hmiss Hfail.
  assert (Hr : response (search tsr artists w raw cache) = Ok []).
  { unfold search. apply Nat.ltb_ge in Hlen. rewrite Hlen, Hmiss.
    unfold collect. rewrite concat_all_nil; [reflexivity|].
    apply Forall_forall. intros l Hl. apply in_map_iff in Hl as (t & <- & Ht).
    apply Hfail. eapply Permutation_in; [apply as_completed_perm|exact Ht]. }
  split; [exact Hr|].
  destruct (search_miss _ _ _ _ _ _ Hlen Hmiss Hr) as (_ & -> & _).
  apply cache_setitem_find.
Qed.

Lemma total_failure_is_cached_witness :
  response (search (flat_ratio 0) KNOWN_ARTISTS (served offline 0) (Some "xyz") []) = Ok [] /\
  cache_find (cache_after (search (flat_ratio 0) KNOWN_ARTISTS (served offline 0)
                             (Some "xyz") [])) "xyz"
    = Some {| ce_key := "xyz"; ce_expires := (0 + CACHE_TTL)%Q; ce_value := [] |}.
Proof.
  apply (total_failure_is_cached (flat_ratio 0) KNOWN_ARTISTS (served offline 0)
           (Some "xyz") []).
  - simpl. lia.
  - reflexivity.
  - intros t _. destruct t; reflexivity.
Defined.

(** X8: a request that fails stores nothing.  When an exception escapes
    the route, every entry of the cache it leaves was in the cache before:
    the failure is not remembered. *)
Theorem failed_search_stores_nothing
    (tsr : string -> string -> Q) (artists : list string) (w : world)
    (raw : option string) (cache : ttl_cache) (ex : exn) :
  response (search tsr artists w raw cache) = Raise ex ->
  forall e, In e (cache_after (search tsr artists w raw cache)) -> In e cache.
Proof.
  unfold search.
  destruct (String.length (normalize raw) <? 2)%nat; [discriminate|].
  destruct (cache_contains _ cache _).
  - pose proof (cache_getitem_In (t_read (w_clock w)) cache (normalize raw)) as H.
    destruct (cache_getitem _ cache _) as [r' c']; simpl in *. auto.
  - destruct (collect tsr _ _) as [st|]; simpl; [|auto].
    destruct (rank (results st)); simpl; [discriminate|auto].
Qed.

Lemma failed_search_stores_nothing_witness :
  response (search (flat_ratio 0) KNOWN_ARTISTS
              (served (first_page_only [unplayed_track]) 0) (Some "abc") [])
    = Raise ValueError /\
  cache_after (search (flat_ratio 0) KNOWN_ARTISTS
                 (served (first_page_only [unplayed_track]) 0) (Some "abc") [])
    = [].
Proof.
  split; [reflexivity|].
  generalize (failed_search_stores_nothing (flat_ratio 0) KNOWN_ARTISTS
                (served (first_page_only [unplayed_track]) 0) (Some "abc") []
                ValueError eq_refl).
  destruct (cache_after _) as [|e l]; [reflexivity|].
  intros H. destruct (H e (or_introl eq_refl)).
Defined.

(** X16: an entry that expires between the look-up and the read makes the
    route fail.  [q in SEARCH_CACHE] and [SEARCH_CACHE[q]] read the clock
    one after the other; when the entry is alive at the first reading and
    expired at the second, the subscript raises [KeyError], which nothing
    catches, and no fetch is submitted. *)
Theorem entry_expiring_before_read_raises
    (tsr : string -> string -> Q) (artists : list string) (w : world)
    (raw : option string) (cache : ttl_cache) (e : cache_entry) :
  (2 <= String.length (normalize raw))%nat ->
  cache_find cache (normalize raw) = Some e ->
  (t_check (w_clock w) < ce_expires e)%Q ->
  (ce_expires e <= t_read (w_clock w))%Q ->
  response (search tsr artists w raw cache) = Raise KeyError /\
  dispatched (search tsr artists w raw cache) = [].
Proof.
  intros Hlen Hf Hc Hd. apply Qltb_lt in Hc. apply Qltb_ge in Hd.
  unfold search, cache_contains, cache_getitem.
  apply Nat.ltb_ge in Hlen. rewrite Hlen, Hf, Hc, Hd. auto.
Qed.

Lemma entry_expiring_before_read_raises_witness :
  response (search (flat_ratio 0) KNOWN_ARTISTS
              {| w_net := offline; w_order := [];
                 w_clock := {| t_check := 1799 # 1; t_read := 1800 # 1;
                               t_store := 1800 # 1 |} |}
              (Some "swag")
              [ {| ce_key := "swag"; ce_expires := 1800 # 1;
                   ce_value := [scored wakhra_track 100] |} ])
    = Raise KeyError.
Proof.
  apply (proj1 (entry_expiring_before_read_raises (flat_ratio 0) KNOWN_ARTISTS
                  {| w_net := offline; w_order := [];
                     w_clock := {| t_check := 1799 # 1; t_read := 1800 # 1;
                                   t_store := 1800 # 1 |} |}
                  (Some "swag")
                  [ {| ce_key := "swag"; ce_expires := 1800 # 1;
                       ce_value := [scored wakhra_track 100] |} ]
                  {| ce_key := "swag"; ce_expires := 1800 # 1;
                     ce_value := [scored wakhra_track 100] |}
                  ltac:(simpl; lia) eq_refl eq_refl
                  ltac:(apply Qle_bool_iff; reflexivity))).
Defined.

Lemma KNOWN_ARTISTS_distinct : NoDup KNOWN_ARTISTS.
Proof.
  unfold KNOWN_ARTISTS.
  repeat (constructor; [simpl; intuition discriminate|]). constructor.
Qed.

(** X9: what a run submits.  Whatever order [random.shuffle] left
    [KNOWN_ARTISTS] in, a request that goes to the network submits exactly
    23 fetches: pages 1, 2 and 3 of the global search, then one entity
    fetch for each of 20 artists, all different and all from
    [KNOWN_ARTISTS]. *)
Theorem run_submits_23_fetches
    (tsr : string -> string -> Q) (artists : list string) (w : world)
    (raw : option string) (cache : ttl_cache) :
  Permutation artists KNOWN_ARTISTS ->
  (2 <= String.length (normalize raw))%nat ->
  cache_contains (t_check (w_clock w)) cache (normalize raw) = false ->
  List.length (dispatched (search tsr artists w raw cache)) = 23%nat /\
  exists targets,
    dispatched (search tsr artists w raw cache)
      = [ FetchGlobal (normalize raw) 1; FetchGlobal (normalize raw) 2;
          FetchGlobal (normalize raw) 3 ]
        ++ map (fun artist => FetchArtist artist (normalize raw)) targets /\
    List.length targets = 20%nat /\
    NoDup targets /\
    incl targets KNOWN_ARTISTS.
Proof.
  intros Hperm Hlen Hmiss. rewrite (search_miss_dispatched _ _ _ _ _ Hlen Hmiss).
  assert (Hn : List.length artists = 41%nat)
    by (rewrite (Permutation_length Hperm); reflexivity).
  split; [apply submit_all_length; lia|].
  exists (firstn 20 artists). split; [reflexivity|]. split; [|split].
  - rewrite length_firstn. lia.
  - apply NoDup_firstn. eapply Permutation_NoDup; [symmetry; exact Hperm|].
    apply KNOWN_ARTISTS_distinct.
  - intros a Ha. eapply Permutation_in; [exact Hperm|]. eapply In_firstn; eauto.
Qed.

Lemma run_submits_23_fetches_witness :
  List.length (dispatched (search (flat_ratio 0) (rev KNOWN_ARTISTS) (served offline 0)
                             (Some "swag") [])) = 23%nat.
Proof.
  apply (proj1 (run_submits_23_fetches (flat_ratio 0) (rev KNOWN_ARTISTS)
                  (served offline 0) (Some "swag") []
                  (Permutation_sym (Permutation_rev KNOWN_ARTISTS))
                  ltac:(simpl; lia) eq_refl)).
Defined.

(* ------------------------------------------------------------------ *)
(** ** Nothing relevant is lost *)

Lemma ident_hashable (a b : value) :
  ident_of a = ident_of b -> hashable a = true -> hashable b = true.
Proof. destruct a; destruct b; simpl; try discriminate; auto. Qed.

(** Every identity recorded as seen is the identity of a result. *)
Lemma collect_seen_are_results tsr q items st :
  foldM (collect_track tsr q) {| results := []; seen_ids := [] |} items = Ok st ->
  forall s, In s (seen_ids st) ->
    exists r, In r (results st) /\ ident_of (track_id r) = ident_of s.
Proof.
  intros H.
  apply (foldM_prefix_invariant (collect_track tsr q)
           (fun st _ => forall s, In s (seen_ids st) ->
              exists r, In r (results st) /\ ident_of (track_id r) = ident_of s))
    with (l := items) (pre := []) (s0 := {| results := []; seen_ids := [] |});
    [|intros s []|exact H].
  clear. intros st pre x st' Hinv Hstep.
  apply collect_track_fate in Hstep.
  destruct Hstep as [tid Hid Ht ->|tid Hid Ht Hh Hs ->
                    |tid t' Hid Ht Hh Hs He Ha ->|tid t' Hid Ht Hh Hs [He Ha] ->];
    auto.
  simpl. intros s Hin. unfold set_add in Hin. rewrite Hs in Hin.
  apply in_app_or in Hin as [Hin|[<-|[]]].
  - destruct (Hinv s Hin) as (r & Hr & Heq). exists r. split; [|exact Heq].
    apply in_or_app. now left.
  - exists t'. split; [apply in_or_app; right; now left|].
    now rewrite (ensure_score_id _ _ _ _ He), (track_id_get _ _ Hid).
Qed.

(** X10: short of the cap nothing relevant is lost.  When a run returns
    fewer than 150 items, every fetched item that has an identity and
    scores above the floor is represented: the response holds an entry of
    the same identity (that item, or the duplicate that came first). *)
Theorem relevant_identities_survive_below_cap
    (tsr : string -> string -> Q) (artists : list string) (w : world)
    (raw : option string) (cache : ttl_cache) (r : list value) :
  (2 <= String.length (normalize raw))%nat ->
  cache_contains (t_check (w_clock w)) cache (normalize raw) = false ->
  response (search tsr artists w raw cache) = Ok r ->
  (List.length r < 150)%nat ->
  forall u u',
    In u (fetched tsr artists w (normalize raw)) ->
    kept_as tsr (normalize raw) u u' ->
    truthy (track_id u) = true ->
    exists x, In x r /\ py_eq (track_id x) (track_id u) = true.
Proof.
  intros Hlen Hmiss Hr Hcap u u' Hu Hk Ht.
  destruct (search_miss _ _ _ _ _ _ Hlen Hmiss Hr) as ((st & ranked & Hc & Hrank & ->) & _).
  apply rank_spec in Hrank as [Hperm _].
  assert (Hall : firstn 150 ranked = ranked).
  { apply firstn_all2. rewrite length_firstn in Hcap. lia. }
  rewrite Hall.
  pose proof (collect_invariant _ _ _ _ Hc) as (Hseen & Hres & _ & Hkeep & _).
  specialize (Hkeep u u' Hu Hk Ht).
  apply in_map_iff in Hkeep as (s & Heq & Hs).
  destruct (collect_seen_are_results _ _ _ _ Hc s Hs) as (x & Hx & Hxs).
  exists x. split.
  - eapply Permutation_in; [symmetry; exact Hperm|exact Hx].
  - rewrite Forall_forall in Hres. destruct (Hres x Hx) as (_ & Hhx & _).
    assert (Hid : ident_of (track_id x) = ident_of (track_id u)) by congruence.
    apply py_eq_ident; auto. eapply ident_hashable; eauto.
Qed.

Lemma relevant_identities_survive_below_cap_witness :
  exists x, In x [scored swag_mashup 100] /\
            py_eq (track_id x) (track_id swag_again) = true.
Proof.
  apply (relevant_identities_survive_below_cap (flat_ratio 0) KNOWN_ARTISTS
           (served (first_page_only [swag_mashup; swag_again]) 0) (Some "swag") []
           [scored swag_mashup 100]
           ltac:(simpl; lia) eq_refl eq_refl ltac:(simpl; lia)
           swag_again (scored swag_again 100)).
  - right. now left.
  - split; reflexivity.
  - reflexivity.
Defined.

(* ------------------------------------------------------------------ *)
(** ** Normalized queries *)

Lemma is_space_lower_char (c : ascii) : is_space (lower_char c) = is_space c.
Proof. destruct c as [[] [] [] [] [] [] [] []]; reflexivity. Qed.

Lemma lstrip_lower (s : string) : lstrip (lower s) = lower (lstrip s).
Proof.
  induction s as [|c s IH]; simpl; [reflexivity|].
  rewrite is_space_lower_char. now destruct (is_space c).
Qed.

Lemma rstrip_lower (s : string) : rstrip (lower s) = lower (rstrip s).
Proof.
  induction s as [|c s IH]; simpl; [reflexivity|].
  rewrite IH, is_space_lower_char.
  destruct (rstrip s); simpl; [now destruct (is_space c)|reflexivity].
Qed.

Lemma rstrip_idem (s : string) : rstrip (rstrip s) = rstrip s.
Proof.
  induction s as [|c s IH]; simpl; [reflexivity|].
  destruct (rstrip s) as [|a r] eqn:E.
  - destruct (is_space c) eqn:Ec; simpl; [reflexivity|now rewrite Ec].
  - change (rstrip (String c (String a r))) with
      (match rstrip (String a r) with
       | EmptyString => if is_space c then EmptyString else String c EmptyString
       | String a' r' => String c (String a' r')
       end).
    now rewrite IH.
Qed.

(** [s] does not begin with whitespace. *)
Lemma lstrip_fixed (s : string) :
  match s with EmptyString => True | String c _ => is_space c = false end ->
  lstrip s = s.
Proof. destruct s as [|c s]; simpl; [reflexivity|]. now intros ->. Qed.

Lemma lstrip_head (s : string) :
  match lstrip s with EmptyString => True | String c _ => is_space c = false end.
Proof.
  induction s as [|c s IH]; simpl; [exact I|].
  destruct (is_space c) eqn:E; [exact IH|exact E].
Qed.

Lemma rstrip_head (s : string) :
  match s with EmptyString => True | String c _ => is_space c = false end ->
  match rstrip s with EmptyString => True | String c _ => is_space c = false end.
Proof.
  destruct s as [|c s]; simpl; [auto|]. intros Hc.
  destruct (rstrip s); [now rewrite Hc|exact Hc].
Qed.

Lemma strip_idem (s : string) : strip (strip s) = strip s.
Proof.
  unfold strip.
  rewrite (lstrip_fixed (rstrip (lstrip s))) by apply rstrip_head, lstrip_head.
  apply rstrip_idem.
Qed.

Lemma strip_lower (s : string) : strip (lower s) = lower (strip s).
Proof. unfold strip. now rewrite lstrip_lower, rstrip_lower. Qed.

(** X12: normalizing is idempotent.  The query the route works with is
    already trimmed and lower-cased, so normalizing it again changes
    nothing: a cached key, sent back as a query, is its own key. *)
Theorem normalize_idempotent (raw : option string) :
  normalize (Some (normalize raw)) = normalize raw /\
  strip (normalize raw) = normalize raw /\
  lower (normalize raw) = normalize raw.
Proof.
  assert (Hs : strip (normalize raw) = normalize raw)
    by (unfold normalize; now rewrite strip_lower, strip_idem).
  split; [|split]; [|exact Hs|apply normalize_lower].
  unfold normalize at 1. rewrite Hs. apply normalize_lower.
Qed.

(* ------------------------------------------------------------------ *)
(** ** The shape of the cache *)

(** Dropping entries of a cache keeps its keys distinct. *)
Lemma keys_distinct_filter (keep : cache_entry -> bool) (c : ttl_cache) :
  NoDup (map ce_key c) -> NoDup (map ce_key (filter keep c)).
Proof.
  induction c as [|e c IH]; simpl; intros Hnd; [exact Hnd|].
  inversion Hnd as [|? ? Hfresh Hrest]; subst.
  destruct (keep e); simpl; [|auto]. constructor; [|auto].
  intros Hin. apply Hfresh. apply in_map_iff in Hin as (e' & Hk & Hin).
  apply in_map_iff. exists e'. split; [exact Hk|].
  now apply filter_In in Hin as [Hin _].
Qed.

(** Dropping the first entries keeps what is left as it was. *)
Lemma skipn_part {A : Type} (n : nat) :
  forall l : list A, incl (skipn n l) l /\ (NoDup l -> NoDup (skipn n l)).
Proof.
  induction n as [|n IH]; intros [|x l]; simpl; split; auto using incl_refl.
  - apply incl_tl. apply IH.
  - intros H. inversion H; subst. now apply IH.
Qed.

Lemma NoDup_keys_snoc (c : ttl_cache) (e : cache_entry) :
  NoDup (map ce_key c) -> cache_find c (ce_key e) = None ->
  NoDup (map ce_key (c ++ [e])).
Proof.
  intros Hnd Hf. rewrite map_app. simpl.
  apply NoDup_app; [exact Hnd|repeat constructor; intros []|].
  intros k Hk [<-|[]]. apply cache_find_none in Hf. rewrite Forall_forall in Hf.
  apply in_map_iff in Hk as (e' & Hk & Hin). now apply (Hf e' Hin).
Qed.

Lemma cache_remove_shorter (c : ttl_cache) (k : string) (e : cache_entry) :
  cache_find c k = Some e -> (List.length (cache_remove c k) < List.length c)%nat.
Proof.
  unfold cache_remove. induction c as [|e' c IH]; simpl; [discriminate|].
  destruct (String.eqb (ce_key e') k); simpl.
  - intros _. pose proof (filter_length_le (fun e0 => negb (String.eqb (ce_key e0) k)) c). lia.
  - intros H. specialize (IH H). lia.
Qed.

(** What a request can do to the cache: nothing, move an entry to the end,
    or store under a normalized query of two characters or more. *)
Lemma search_cache_after_cases tsr artists w raw cache :
  cache_after (search tsr artists w raw cache) = cache \/
  (exists e, cache_find cache (normalize raw) = Some e /\
     cache_after (search tsr artists w raw cache)
       = cache_remove cache (normalize raw) ++ [e]) \/
  ((2 <= String.length (normalize raw))%nat /\
   exists r, cache_after (search tsr artists w raw cache)
     = cache_setitem (t_store (w_clock w)) cache (normalize raw) r).
Proof.
  unfold search.
  destruct (Nat.ltb_spec (String.length (normalize raw)) 2) as [Hlt|Hge]; [now left|].
  destruct (cache_contains _ cache _).
  - unfold cache_getitem.
    destruct (cache_find cache (normalize raw)) as [e|] eqn:Ef; [|now left].
    right; left. exists e. split; [reflexivity|].
    now destruct (Qltb _ (ce_expires e)).
  - destruct (collect tsr _ _) as [st|]; simpl; [|now left].
    destruct (rank (results st)) as [ranked|]; simpl; [|now left].
    right; right. eauto.
Qed.

(** X11: the shape of the cache.  Every cache a process can hold has at
    most [CACHE_MAXSIZE] = 3000 entries, no two under the same key, and
    every key is a normalized query of at least two characters. *)
Theorem reachable_cache_shape
    (tsr : string -> string -> Q) (artists : list string) (cache : ttl_cache) :
  reachable tsr artists cache ->
  (List.length cache <= CACHE_MAXSIZE)%nat /\
  NoDup (map ce_key cache) /\
  Forall (fun e => (2 <= String.length (ce_key e))%nat /\
                   exists raw, ce_key e = normalize raw) cache.
Proof.
  induction 1 as [|w raw cache _ (Hlen & Hnd & Hkeys)].
  - repeat split; simpl; [unfold CACHE_MAXSIZE; lia|constructor|constructor].
  - destruct (search_cache_after_cases tsr artists w raw cache)
      as [->|[(e & Hf & ->)|(Hq & r & ->)]]; [auto| |].
    + (* an entry read: moved to the end *)
      pose proof (cache_remove_shorter _ _ _ Hf) as Hshort.
      destruct (cache_find_In _ _ _ Hf) as [Hin Hk].
      split; [|split].
      * rewrite length_app. simpl. lia.
      * apply NoDup_keys_snoc; [now apply keys_distinct_filter|].
        rewrite Hk. apply cache_remove_find.
      * rewrite Forall_forall in *. intros e' He'.
        apply in_app_or in He' as [He'|[<-|[]]]; [|auto].
        apply Hkeys. now apply filter_In in He' as [He' _].
    + (* a result stored *)
      unfold cache_setitem.
      set (live := cache_expire (t_store (w_clock w)) cache).
      assert (Hlive : (List.length live <= List.length cache)%nat)
        by apply filter_length_le.
      assert (Hndl : NoDup (map ce_key live)) by now apply keys_distinct_filter.
      assert (Hkl : forall e, In e live -> In e cache)
        by (intros e He; now apply filter_In in He as [He _]).
      destruct (cache_find live (normalize raw)) as [e|] eqn:Ef.
      * pose proof (cache_remove_shorter _ _ _ Ef) as Hshort.
        split; [|split].
        -- rewrite length_app. simpl. lia.
        -- apply NoDup_keys_snoc; [now apply keys_distinct_filter|].
           simpl. apply cache_remove_find.
        -- rewrite Forall_forall in *. intros e' He'.
           apply in_app_or in He' as [He'|[<-|[]]]; [|simpl; eauto].
           apply Hkeys, Hkl. now apply filter_In in He' as [He' _].
      * split; [|split].
        -- rewrite length_app, length_skipn. simpl. unfold CACHE_MAXSIZE. lia.
        -- apply NoDup_keys_snoc.
           ++ rewrite <- skipn_map. now apply skipn_part.
           ++ simpl. now apply cache_find_skipn.
        -- rewrite Forall_forall in *. intros e' He'.
           apply in_app_or in He' as [He'|[<-|[]]]; [|simpl; eauto].
           apply Hkeys, Hkl. eapply (proj1 (skipn_part _ live)). exact He'.
Qed.

Lemma reachable_cache_shape_witness :
  (List.length (cache_after (search (flat_ratio 0) KNOWN_ARTISTS
                               (served (first_page_only [wakhra_track]) 0)
                               (Some " Swag ") [])) <= CACHE_MAXSIZE)%nat /\
  NoDup (map ce_key (cache_after (search (flat_ratio 0) KNOWN_ARTISTS
                                    (served (first_page_only [wakhra_track]) 0)
                                    (Some " Swag ") []))) /\
  Forall (fun e => (2 <= String.length (ce_key e))%nat /\
                   exists raw, ce_key e = normalize raw)
         (cache_after (search (flat_ratio 0) KNOWN_ARTISTS
                         (served (first_page_only [wakhra_track]) 0)
                         (Some " Swag ") [])).
Proof.
  apply (reachable_cache_shape (flat_ratio 0) KNOWN_ARTISTS).
  apply reach_request. apply reach_start.
Defined.

(* ------------------------------------------------------------------ *)
(** ** Queries that are not lower-cased *)

Lemma is_upper_lower_char (c : ascii) : is_upper (lower_char c) = false.
Proof. destruct c as [[] [] [] [] [] [] [] []]; reflexivity. Qed.

Lemma is_upper_not_space (c : ascii) : is_upper c = true -> is_space c = false.
Proof. destruct c as [[] [] [] [] [] [] [] []]; simpl; intros H; try reflexivity; discriminate. Qed.

Lemma has_upper_lower (s : string) : has_upper (lower s) = false.
Proof.
  induction s as [|c s IH]; simpl; [reflexivity|].
  now rewrite is_upper_lower_char, IH.
Qed.

Lemma has_upper_append (a b : string) :
  has_upper (String.append a b) = has_upper a || has_upper b.
Proof.
  induction a as [|c a IH]; simpl; [reflexivity|]. now rewrite IH, orb_assoc.
Qed.

Lemma prefix_has_upper (p s : string) :
  String.prefix p s = true -> has_upper p = true -> has_upper s = true.
Proof.
  revert s; induction p as [|c p IH]; intros [|d s]; simpl; try discriminate.
  destruct (ascii_dec c d) as [->|]; [|discriminate].
  intros Hp Hu. apply orb_true_iff in Hu as [Hu|Hu].
  - now rewrite Hu.
  - rewrite (IH s Hp Hu). apply orb_true_r.
Qed.

Lemma substr_in_has_upper (p s : string) :
  substr_in p s = true -> has_upper p = true -> has_upper s = true.
Proof.
  induction s as [|c s IH]; simpl; intros H Hu; apply orb_true_iff in H as [H|H].
  - now apply (prefix_has_upper p "").
  - discriminate.
  - now apply (prefix_has_upper p (String c s)).
  - rewrite (IH H Hu). apply orb_true_r.
Qed.

Lemma has_upper_of_list (l : list ascii) :
  has_upper (string_of_list_ascii l) = existsb is_upper l.
Proof. induction l as [|c l IH]; simpl; congruence. Qed.

Lemma existsb_is_upper_rev (l : list ascii) :
  existsb is_upper (rev l) = existsb is_upper l.
Proof.
  induction l as [|c l IH]; simpl; [reflexivity|].
  rewrite existsb_app, IH. simpl. rewrite orb_false_r. apply orb_comm.
Qed.

(** An upper-case letter of the query ends up in one of its parts. *)
Lemma split_aux_has_upper (s : string) :
  forall word,
    existsb is_upper word || has_upper s = true ->
    existsb has_upper (split_aux word s) = true.
Proof.
  induction s as [|c s IH]; intros word H; simpl in *.
  - rewrite orb_false_r in H. destruct word as [|a word]; [discriminate|].
    cbv iota. cbn [existsb]. rewrite has_upper_of_list, existsb_is_upper_rev, H.
    reflexivity.
  - destruct (is_space c) eqn:Es.
    + assert (Hc : is_upper c = false).
      { destruct (is_upper c) eqn:E; [|reflexivity].
        apply is_upper_not_space in E. congruence. }
      rewrite Hc in H. simpl in H.
      destruct word as [|a word].
      * apply (IH []). exact H.
      * cbv iota. cbn [existsb].
        rewrite has_upper_of_list, existsb_is_upper_rev.
        apply orb_true_iff in H as [H|H]; [now rewrite H|].
        rewrite (IH [] H). apply orb_true_r.
    + apply IH. simpl. rewrite <- H.
      destruct (is_upper c), (existsb is_upper word), (has_upper s); reflexivity.
Qed.

Lemma split_has_upper (q : string) :
  has_upper q = true -> exists part, In part (split q) /\ has_upper part = true.
Proof.
  intros H. apply existsb_exists. apply split_aux_has_upper. exact H.
Qed.

(** X13: the scorer matches lower-cased text only.  A query that holds an
    upper-case letter can be found neither in the lower-cased title nor,
    part by part, in the lower-cased title and owner: rules 1 and 2 never
    fire for it, and whatever score it gets is the fuzzy one.  The route
    lower-cases the query before it scores. *)
Theorem uppercase_query_scores_fuzzy_only
    (tsr : string -> string -> Q) (q : string) (track v : value) :
  has_upper q = true ->
  calculate_score tsr q track = Ok v ->
  exists x, v = VFloat x.
Proof.
  intros Hu. unfold calculate_score.
  destruct (py_get track "title" (VStr "")) as [tv|]; cbn [bind]; [|discriminate].
  destruct tv as [| | | |title| |]; simpl py_lower; cbn [bind]; try discriminate.
  destruct (py_get track "user" (VDict [])) as [uv|]; cbn [bind]; [|discriminate].
  destruct (py_get uv "username" (VStr "")) as [nv|]; cbn [bind]; [|discriminate].
  destruct nv as [| | | |user| |]; simpl py_lower; cbn [bind]; try discriminate.
  destruct (substr_in q (lower title)) eqn:E1.
  { apply substr_in_has_upper in E1; [|exact Hu].
    now rewrite has_upper_lower in E1. }
  destruct (forallb _ (split q)) eqn:E2.
  { destruct (split_has_upper q Hu) as (part & Hin & Hp).
    rewrite forallb_forall in E2. specialize (E2 part Hin).
    apply substr_in_has_upper in E2; [|exact Hp].
    rewrite !has_upper_append, !has_upper_lower in E2. discriminate. }
  rewrite andb_false_r.
  destruct (py_get track "download_url" VNone) as [dl|]; cbn [bind]; [|discriminate].
  intros [= <-]. eauto.
Qed.

Lemma uppercase_query_scores_fuzzy_only_witness :
  calculate_score (flat_ratio 60) "Swag" wakhra_track = Ok (VFloat (60 + 5)) /\
  exists x, VFloat (60 + 5) = VFloat x.
Proof.
  split; [reflexivity|].
  apply (uppercase_query_scores_fuzzy_only (flat_ratio 60) "Swag" wakhra_track);
    reflexivity.
Defined.

(* ------------------------------------------------------------------ *)
(** ** Ties *)

Lemma key_eqb_not_greater (k a b : Q * Z) :
  key_eqb k a = true -> key_gt b a = true -> key_eqb k b = false.
Proof.
  unfold key_eqb, key_gt.
  rewrite andb_true_iff, orb_true_iff, andb_true_iff, Qeq_bool_iff, Qltb_lt,
    Qeq_bool_iff, Z.eqb_eq, Z.ltb_lt.
  intros [Hq Hz] Hgt. apply andb_false_iff.
  destruct (Qeq_bool (fst k) (fst b)) eqn:E; [right|now left].
  apply Qeq_bool_iff in E. apply Z.eqb_neq.
  destruct Hgt as [Hlt|[_ Hlt]]; [|lia].
  exfalso. rewrite <- Hq, E in Hlt. now apply Qlt_irrefl in Hlt.
Qed.

Lemma insert_desc_filter {A : Type} (k : Q * Z) (x : (Q * Z) * A) l :
  filter (fun y => key_eqb k (fst y)) (insert_desc x l)
    = filter (fun y => key_eqb k (fst y)) (x :: l).
Proof.
  induction l as [|y l IH]; [reflexivity|]. simpl insert_desc.
  destruct (key_gt (fst y) (fst x)) eqn:E; [|reflexivity].
  simpl filter at 1. rewrite IH. simpl.
  destruct (key_eqb k (fst x)) eqn:Ex; [|reflexivity].
  now rewrite (key_eqb_not_greater _ _ _ Ex E).
Qed.

Lemma sort_desc_filter {A : Type} (k : Q * Z) (l : list ((Q * Z) * A)) :
  filter (fun y => key_eqb k (fst y)) (sort_desc l)
    = filter (fun y => key_eqb k (fst y)) l.
Proof.
  induction l as [|x l IH]; [reflexivity|]. simpl sort_desc.
  rewrite insert_desc_filter. simpl. now rewrite IH.
Qed.

Lemma filter_keyed (k : Q * Z) (l : list ((Q * Z) * value)) :
  Forall (fun kx => sort_key (snd kx) = Ok (fst kx)) l ->
  filter (has_key_value k) (map snd l)
    = map snd (filter (fun y => key_eqb k (fst y)) l).
Proof.
  induction 1 as [|kx l Hk _ IH]; [reflexivity|]. simpl.
  unfold has_key_value at 1. rewrite Hk, IH.
  now destruct (key_eqb k (fst kx)).
Qed.

(** X17: ties keep the order of collection.  The ranking is stable: the
    items that share a sort key (the same score and the same popularity
    counter) come out in the order in which the gathering loop kept them. *)
Theorem rank_keeps_ties_in_order (items ranked : list value) (k : Q * Z) :
  rank items = Ok ranked ->
  filter (has_key_value k) ranked = filter (has_key_value k) items.
Proof.
  unfold rank.
  destruct (mapM _ items) as [keyed|] eqn:E; simpl; [|discriminate].
  intros [= <-]. apply mapM_ok in E.
  assert (Hk : map snd keyed = items /\
               Forall (fun kx => sort_key (snd kx) = Ok (fst kx)) keyed).
  { induction E as [|x kx items keyed Hx _ [IH1 IH2]]; simpl; [auto|].
    destruct (sort_key x) as [k'|] eqn:Ek; simpl in Hx; [|discriminate].
    inversion Hx; subst kx; simpl. split; [congruence|]. constructor; auto. }
  destruct Hk as [Hsnd Hkeys]. rewrite <- Hsnd.
  rewrite !filter_keyed; [now rewrite sort_desc_filter|exact Hkeys|].
  rewrite Forall_forall in *. intros kx Hin. apply Hkeys.
  eapply Permutation_in; [apply sort_desc_perm|exact Hin].
Qed.

Lemma rank_keeps_ties_in_order_witness :
  filter (has_key_value (inject_Z 100, 0))
         [scored swag_mashup 100; scored swag_again 100; scored zzz_track 100]
    = [scored swag_again 100; scored zzz_track 100].
Proof.
  apply (rank_keeps_ties_in_order
           [scored swag_again 100; scored swag_mashup 100; scored zzz_track 100]
           [scored swag_mashup 100; scored swag_again 100; scored zzz_track 100]
           (inject_Z 100, 0)).
  reflexivity.
Defined.

(* ------------------------------------------------------------------ *)
(** ** The length of the query *)

Lemma code_facts (c : ascii) :
  (N_of_ascii c <? 128)%N = true ->
  is_space_cp (N_of_ascii c) = is_space c /\
  lower_cp (N_of_ascii c) = [N_of_ascii (lower_char c)] /\
  utf8_cp (N_of_ascii c) = [c] /\
  (N_of_ascii (lower_char c) <? 128)%N = true.
Proof.
  destruct c as [[] [] [] [] [] [] [] []]; intros H;
    try discriminate H; repeat split.
Qed.

Lemma length_codes (s : string) : List.length (codes s) = String.length s.
Proof. induction s as [|c s IH]; simpl; congruence. Qed.

Lemma encode_codes (s : string) : ascii_only s = true -> encode (codes s) = s.
Proof.
  unfold encode. induction s as [|c s IH]; simpl; [reflexivity|].
  intros H. apply andb_true_iff in H as [Hc Hs].
  destruct (code_facts c Hc) as (_ & _ & -> & _). simpl. now rewrite IH.
Qed.

Lemma codes_lower (s : string) :
  ascii_only s = true ->
  codes (lower s) = text_lower (codes s) /\ ascii_only (lower s) = true.
Proof.
  unfold text_lower. induction s as [|c s IH]; simpl; [auto|].
  intros H. apply andb_true_iff in H as [Hc Hs].
  destruct (code_facts c Hc) as (_ & -> & _ & ->). destruct (IH Hs) as [-> ->].
  auto.
Qed.

Lemma codes_lstrip (s : string) :
  ascii_only s = true ->
  codes (lstrip s) = text_lstrip (codes s) /\ ascii_only (lstrip s) = true.
Proof.
  induction s as [|c s IH]; simpl; [auto|].
  intros H. pose proof H as H'. apply andb_true_iff in H as [Hc Hs].
  destruct (code_facts c Hc) as (-> & _).
  destruct (is_space c); [auto|]. simpl. auto.
Qed.

Lemma codes_rstrip (s : string) :
  ascii_only s = true ->
  codes (rstrip s) = text_rstrip (codes s) /\ ascii_only (rstrip s) = true.
Proof.
  induction s as [|c s IH]; simpl; [auto|].
  intros H. apply andb_true_iff in H as [Hc Hs].
  destruct (code_facts c Hc) as (-> & _). destruct (IH Hs) as [IH1 IH2].
  rewrite <- IH1. destruct (rstrip s) as [|a r]; simpl in *.
  - destruct (is_space c); simpl; [auto|]. now rewrite Hc.
  - now rewrite Hc, IH2.
Qed.

Lemma codes_normalize (s : string) :
  ascii_only s = true ->
  normalize_text (Some (codes s)) = codes (normalize (Some s)) /\
  ascii_only (normalize (Some s)) = true.
Proof.
  intros H. unfold normalize_text, normalize, text_strip, strip.
  destruct (codes_lstrip s H) as [<- H1].
  destruct (codes_rstrip _ H1) as [<- H2].
  destruct (codes_lower _ H2) as [<- H3]. auto.
Qed.

(** On a query of ASCII characters the route on texts is the route on
    strings. *)
Lemma search_text_ascii tsr artists w (s : string) cache :
  ascii_only s = true ->
  search_text tsr artists w (Some (codes s)) cache
    = search tsr artists w (Some s) cache.
Proof.
  intros H. unfold search_text, search, search_query.
  destruct (codes_normalize s H) as [-> Ha].
  now rewrite length_codes, (encode_codes _ Ha).
Qed.

Lemma length_lower_cp (c : N) :
  c <> 304%N -> List.length (lower_cp c) = 1%nat.
Proof.
  intros Hc. unfold lower_cp.
  destruct ((65 <=? c) && (c <=? 90))%N; [reflexivity|].
  destruct (N.eqb_spec c 304); [contradiction|reflexivity].
Qed.

(** C9, as amended: the route measures the query after trimming and
    lower-casing it.  A raw query whose normalized form has fewer than two
    characters is answered with the empty list, the cache left alone and
    nothing submitted; and so is every raw query whose trimmed form has
    fewer than two characters, the single character U+0130 apart. *)
Theorem short_normalized_query_short_circuits
    (tsr : string -> string -> Q) (artists : list string) (w : world)
    (raw : option text) (cache : ttl_cache) :
  ((List.length (normalize_text raw) < 2)%nat ->
   search_text tsr artists w raw cache
     = {| response := Ok []; cache_after := cache; dispatched := [] |}) /\
  ((List.length (text_strip (match raw with Some s => s | None => [] end)) < 2)%nat ->
   text_strip (match raw with Some s => s | None => [] end) <> [304%N] ->
   search_text tsr artists w raw cache
     = {| response := Ok []; cache_after := cache; dispatched := [] |}).
Proof.
  assert (Hshort : (List.length (normalize_text raw) < 2)%nat ->
                   search_text tsr artists w raw cache
                   = {| response := Ok []; cache_after := cache; dispatched := [] |}).
  { intros Hlen. unfold search_text. now apply Nat.ltb_lt in Hlen as ->. }
  split; [exact Hshort|].
  intros Hlen Hne. apply Hshort. unfold normalize_text, text_lower.
  destruct (text_strip _) as [|c [|d t]]; simpl in *; [lia| |lia].
  rewrite app_nil_r, length_lower_cp; [lia|]. congruence.
Qed.

Lemma short_normalized_query_short_circuits_witness :
  search_text (flat_ratio 0) KNOWN_ARTISTS (served (answering 200 [wakhra_track]) 0)
              (Some [32; 65; 32]%N) []
    = {| response := Ok []; cache_after := []; dispatched := [] |}.
Proof.
  apply (proj2 (short_normalized_query_short_circuits (flat_ratio 0) KNOWN_ARTISTS
                  (served (answering 200 [wakhra_track]) 0) (Some [32; 65; 32]%N) [])).
  - simpl. lia.
  - discriminate.
Defined.

(** C9, as stated, fails on the raw query U+0130.  Its trimmed form has one
    character; lower-cased it has two, U+0069 U+0307, so the route goes on
    past the length test and submits its 23 fetches. *)
Lemma dotted_capital_i_is_searched :
  List.length (text_strip [304%N]) = 1%nat /\
  normalize_text (Some [304%N]) = [105; 775]%N /\
  dispatched (search_text (flat_ratio 0) KNOWN_ARTISTS (served offline 0)
                (Some [304%N]) [])
    = submit_all KNOWN_ARTISTS (encode [105; 775]%N) /\
  List.length (dispatched (search_text (flat_ratio 0) KNOWN_ARTISTS (served offline 0)
                             (Some [304%N]) [])) = 23%nat.
Proof. repeat split. Qed.
